(** * simple-teleprompter: segmentation and scroll-timing engine

    A shallow embedding of [src/views/TeleprompterView.tsx]:
    - [getSegments] / [splitLongSegment], the text segmenter;
    - the scroll controller ([step], [stepScroll], [goToSegment],
      [handleReset], [updateMaxScroll], the scroll listener).

    JavaScript strings are sequences of UTF-16 code units; they are modelled
    as lists of code units ([N]).  JavaScript numbers that carry pixel
    offsets and times are modelled as exact rationals ([Q]); indices are
    integers ([Z]) or naturals where the code only uses them as positions.
    The code computes offsets in IEEE doubles and the model does not round:
    the properties below are bounds, clamps and comparisons of one
    operation, and none relies on the sum of several steps being exact. *)

From Equations Require Import Equations.
From Stdlib Require Import String Ascii.
From Stdlib Require Import List Arith ZArith NArith Lia Bool.
From Stdlib Require Import QArith Qminmax Qround Lqa.
Import ListNotations.

Close Scope Q_scope.

(** ** JavaScript strings *)

Module JS.

Definition char := N.
Definition jsstring := list char.

(** ["..."] literals of the development: one code unit per character. *)
Definition of_string (s : string) : jsstring :=
  map N_of_ascii (list_ascii_of_string s).

Definition NL : char := 10%N.      (* "\n" *)
Definition SPACE : char := 32%N.   (* " " *)

(** ECMAScript WhiteSpace and LineTerminator code points, the characters
    that [String.prototype.trim] strips. *)
Definition is_ws (c : char) : bool :=
  ((9 <=? c) && (c <=? 13) ||
   (c =? 32) || (c =? 160) || (c =? 5760) ||
   (8192 <=? c) && (c <=? 8202) ||
   (c =? 8232) || (c =? 8233) || (c =? 8239) || (c =? 8287) ||
   (c =? 12288) || (c =? 65279))%N.

Fixpoint trimStart (s : jsstring) : jsstring :=
  match s with
  | [] => []
  | c :: s' => if is_ws c then trimStart s' else s
  end.

Definition trimEnd (s : jsstring) : jsstring := rev (trimStart (rev s)).

(** [s.trim()] *)
Definition trim (s : jsstring) : jsstring := trimStart (trimEnd s).

(** [s.slice(0, n)] and [s.slice(n)] for a non-negative [n]. *)
Definition slice_to (n : nat) (s : jsstring) : jsstring := firstn n s.
Definition slice_from (n : nat) (s : jsstring) : jsstring := skipn n s.

(** [s.lastIndexOf(c)]: the greatest index holding [c], or [-1]. *)
Fixpoint lastIndexOf_from (c : char) (s : jsstring) (i found : Z) : Z :=
  match s with
  | [] => found
  | x :: s' => lastIndexOf_from c s' (i + 1) (if (x =? c)%N then i else found)
  end.

Definition lastIndexOf (c : char) (s : jsstring) : Z :=
  lastIndexOf_from c s 0 (-1).

Definition string_eqb (a b : jsstring) : bool :=
  if list_eq_dec N.eq_dec a b then true else false.

(** *** Regular expressions used by the segmenter

    A matcher looks at the text from the current position on and answers
    with the length of the match, if there is one. *)
Definition matcher := jsstring -> option nat.

Definition in_class (cs : list char) (c : char) : bool :=
  existsb (N.eqb c) cs.

(** Length of the longest prefix made of characters of the class. *)
Fixpoint class_run (cs : list char) (s : jsstring) : nat :=
  match s with
  | c :: s' => if in_class cs c then S (class_run cs s') else 0
  | [] => 0
  end.

(** [[cs]+], greedy. *)
Definition re_class_plus (cs : list char) : matcher :=
  fun s => match class_run cs s with 0 => None | n => Some n end.

(** A single literal character. *)
Definition re_char (c : char) : matcher :=
  fun s => match s with
           | x :: _ => if (x =? c)%N then Some 1 else None
           | [] => None
           end.

(** [r1|r2]: the first alternative that matches wins. *)
Definition re_alt (r1 r2 : matcher) : matcher :=
  fun s => match r1 s with Some n => Some n | None => r2 s end.

(** [s.split(re)] without a limit, for a regular expression without capture
    groups.  [piece] is the text since the last separator, [skip] counts the
    characters of a separator match still to be passed over.  A match of
    length zero at the position right after a separator does not split. *)
Fixpoint split_loop (re : matcher) (piece : jsstring) (skip : nat)
         (s : jsstring) : list jsstring :=
  match s with
  | [] => [piece]
  | c :: s' =>
      match skip with
      | S k => split_loop re piece k s'
      | 0 =>
          match re s with
          | Some (S k) => piece :: split_loop re [] k s'
          | Some 0 =>
              match piece with
              | [] => split_loop re [c] 0 s'
              | _ => piece :: split_loop re [c] 0 s'
              end
          | None => split_loop re (piece ++ [c]) 0 s'
          end
      end
  end.

Definition split (re : matcher) (s : jsstring) : list jsstring :=
  match s with
  | [] => match re [] with Some _ => [] | None => [[]] end
  | _ => split_loop re [] 0 s
  end.

End JS.

Import JS.

(** ** The segmenter *)

(** Max characters per segment so each fits one line in the reading strip. *)
Definition MAX_CHARS_PER_LINE : nat := 72.

(** Where the wrap loop cuts [rest]:
    [const slice = rest.slice(0, MAX_CHARS_PER_LINE + 1);
     const lastSpace = slice.lastIndexOf(" ");
     const breakAt = lastSpace > 0 ? lastSpace + 1 : MAX_CHARS_PER_LINE;] *)
Definition breakAt (rest : jsstring) : nat :=
  let slice := slice_to (MAX_CHARS_PER_LINE + 1) rest in
  let lastSpace := lastIndexOf SPACE slice in
  if (0 <? lastSpace)%Z then Z.to_nat (lastSpace + 1) else MAX_CHARS_PER_LINE.

(** The chunk pushed by one iteration and the remainder it leaves. *)
Definition chunk_of (rest : jsstring) : jsstring :=
  trim (slice_to (breakAt rest) rest).

Definition rest_after (rest : jsstring) : jsstring :=
  trim (slice_from (breakAt rest) rest).

(** The [while (rest.length > 0)] loop of [splitLongSegment]; [chunks.push]
    becomes a cons in front of what the later iterations push.  The
    recursion is well-founded on the length of the remainder. *)
Equations? wrap_loop (rest : jsstring) : list jsstring
  by wf (length rest) lt :=
  wrap_loop rest with le_lt_dec (length rest) 0 := {
    | left _ => [] ;
    | right _ with le_lt_dec (length rest) MAX_CHARS_PER_LINE := {
        | left _ => [rest] ;
        | right _ => chunk_of rest :: wrap_loop (rest_after rest) } }.
Proof.
  assert (Hts : forall s : jsstring, length (trimStart s) <= length s).
  { induction s as [|c s IH]; simpl; [lia|].
    destruct (is_ws c); simpl; lia. }
  assert (Hb : 1 <= breakAt rest).
  { unfold breakAt. destruct (Z.ltb_spec 0 (lastIndexOf SPACE
      (slice_to (MAX_CHARS_PER_LINE + 1) rest))); [lia|].
    unfold MAX_CHARS_PER_LINE. lia. }
  unfold rest_after, trim, trimEnd, slice_from.
  eapply Nat.le_lt_trans; [apply Hts|].
  rewrite length_rev.
  eapply Nat.le_lt_trans; [apply Hts|].
  rewrite length_rev, length_skipn. lia.
Qed.

(** The same loop, one iteration per unit of fuel, with the [chunks] array
    as the code has it; [None] when the fuel runs out before the loop
    exits. *)
Fixpoint wrap_iter (fuel : nat) (chunks : list jsstring) (rest : jsstring)
  : option (list jsstring) :=
  match fuel with
  | 0 => None
  | S fuel' =>
      if length rest =? 0 then Some chunks
      else if length rest <=? MAX_CHARS_PER_LINE then Some (chunks ++ [rest])
      else wrap_iter fuel' (chunks ++ [chunk_of rest]) (rest_after rest)
  end.

Definition splitLongSegment (segment : jsstring) : list jsstring :=
  if length segment <=? MAX_CHARS_PER_LINE then [segment]
  else wrap_loop (trim segment).

(** [/[\n\n]+|\n/]: one or more characters of the class [[\n\n]], or else a
    single newline. *)
Definition re_paragraph : matcher :=
  re_alt (re_class_plus [NL; NL]) (re_char NL).

(** [/\n/] *)
Definition re_line : matcher := re_char NL.

(** The spacer placed between parts, the string ["\n"]. *)
Definition SPACER : jsstring := [NL].

(** [segments.flatMap((s, i) => (i === 0 ? [s] : ["\n", s]))] *)
Fixpoint flatMap_spacers (i : nat) (segments : list jsstring)
  : list jsstring :=
  match segments with
  | [] => []
  | s :: more =>
      (if i =? 0 then [s] else [SPACER; s]) ++ flatMap_spacers (S i) more
  end.

Definition byParagraph (text : jsstring) : list jsstring :=
  split re_paragraph text.

Definition byLine (text : jsstring) : list jsstring :=
  split re_line text.

(** The parts chosen by [getSegments] before spacers and wrapping. *)
Definition segments_of (text : jsstring) : list jsstring :=
  if 1 <? length (byParagraph text) then byParagraph text
  else if 1 <? length (byLine text) then byLine text else [text].

Definition withEmptyBetween (segments : list jsstring) : list jsstring :=
  if 1 <? length segments then flatMap_spacers 0 segments else segments.

Definition getSegments (text : jsstring) : list jsstring :=
  flat_map splitLongSegment (withEmptyBetween (segments_of text)).

(** [segments[idx].trim() === ""], for an index inside the list. *)
Definition is_skip (segment : jsstring) : bool :=
  string_eqb (trim segment) [].

(** *** The segmenter as the specification words it

    Paragraph boundaries are runs of two or more newlines; single newlines
    split only when the text has no paragraph boundary. *)

(** Two or more consecutive newlines. *)
Definition re_two_or_more_newlines : matcher :=
  fun s => match class_run [NL] s with
           | S (S k) => Some (S (S k))
           | _ => None
           end.

Definition segments_spec (text : jsstring) : list jsstring :=
  if 1 <? length (split re_two_or_more_newlines text)
  then split re_two_or_more_newlines text
  else if 1 <? length (split re_line text) then split re_line text
       else [text].

Definition getSegments_spec (text : jsstring) : list jsstring :=
  flat_map splitLongSegment (withEmptyBetween (segments_spec text)).

(** *** Worked texts *)

(** ["a\nb\n\nc"] and ["a\nb\nc"]. *)
Definition text_a_b__c : jsstring :=
  of_string "a" ++ [NL] ++ of_string "b" ++ [NL; NL] ++ of_string "c".

Definition text_a_b_c : jsstring :=
  of_string "a" ++ [NL] ++ of_string "b" ++ [NL] ++ of_string "c".

(** A line of 120 characters, eleven words of ten letters. *)
Definition text_long_line : jsstring :=
  of_string
    "aaaaaaaaaa bbbbbbbbbb cccccccccc dddddddddd eeeeeeeeee ffffffffff gggggggggg hhhhhhhhhh iiiiiiiiii jjjjjjjjjj kkkkkkkkkk".

(** A text written as newline-free parts separated by runs of newlines:
    [p], then for each [(k, q)] a run of [k + 1] newlines followed by [q]. *)
Fixpoint join_runs (p : jsstring) (more : list (nat * jsstring)) : jsstring :=
  match more with
  | [] => p
  | (k, q) :: more' => p ++ repeat NL (S k) ++ join_runs q more'
  end.

(** Parts after the first: free of newlines, and empty only in last
    position (two runs of newlines with nothing between are one run). *)
Fixpoint parts_ok (more : list (nat * jsstring)) : Prop :=
  match more with
  | [] => True
  | (_, q) :: more' => ~ In NL q /\ (more' <> [] -> q <> []) /\ parts_ok more'
  end.

Definition no_leading_newline (s : jsstring) : Prop :=
  match s with
  | c :: _ => c <> NL
  | [] => True
  end.

(** ** Exceptions *)

(** A call either returns or throws the [TypeError] of reading a property
    of [undefined]. *)
Inductive outcome (A : Type) : Type :=
| Ok (a : A)
| TypeError.
Arguments Ok {A} a.
Arguments TypeError {A}.

Definition bind {A B} (m : outcome A) (k : A -> outcome B) : outcome B :=
  match m with
  | Ok a => k a
  | TypeError => TypeError
  end.

Notation "x <- m ;; k" := (bind m (fun x => k))
  (at level 61, m at next level, right associativity).

(** ** Choosing the segment to go to *)

Inductive Direction := Next | Prev.

Section Navigation.

Variable segments : list jsstring.

Let len : Z := Z.of_nat (length segments).

(** [segments[idx].trim() === ""]; outside the array [segments[idx]] is
    [undefined] and [.trim()] throws. *)
Definition isEmpty (idx : Z) : outcome bool :=
  if ((0 <=? idx) && (idx <? Z.of_nat (length segments)))%Z
  then match nth_error segments (Z.to_nat idx) with
       | Some s => Ok (is_skip s)
       | None => TypeError
       end
  else TypeError.

(** [while (i < segments.length && isEmpty(i)) i++;] *)
Equations? walk_next (i : Z) : outcome Z
  by wf (Z.to_nat (Z.of_nat (length segments) - i)) lt :=
  walk_next i with Z_lt_dec i (Z.of_nat (length segments)) := {
    | right _ => Ok i ;
    | left _ with isEmpty i := {
        | TypeError => TypeError ;
        | Ok false => Ok i ;
        | Ok true => walk_next (i + 1)%Z } }.
Proof. lia. Qed.

(** [while (i >= 0 && isEmpty(i)) i--;] *)
Equations? walk_prev (i : Z) : outcome Z by wf (Z.to_nat (i + 1)) lt :=
  walk_prev i with Z_le_dec 0 i := {
    | right _ => Ok i ;
    | left _ with isEmpty i := {
        | TypeError => TypeError ;
        | Ok false => Ok i ;
        | Ok true => walk_prev (i - 1)%Z } }.
Proof. lia. Qed.

(** The index [goToSegment] settles on, for a non-empty [segments]. *)
Definition goToSegment_index (index : Z) (direction : option Direction)
  : outcome Z :=
  let i := Z.max 0 (Z.min index (len - 1)) in
  e <- isEmpty i ;;
  if e then
    match direction with
    | Some Next =>
        i <- walk_next i ;;
        Ok (Z.min i (len - 1))
    | Some Prev =>
        i <- walk_prev i ;;
        Ok (Z.max i 0)
    | None =>
        i <- walk_next i ;;
        if (len <=? i)%Z then
          i <- walk_prev index ;;
          Ok (Z.max i 0)
        else Ok (Z.min i (len - 1))
    end
  else Ok i.

(** [Math.max(0, Math.min(index, segments.length - 1))] *)
Definition clamp_index (index : Z) : Z :=
  Z.max 0 (Z.min index (Z.of_nat (length segments) - 1)).

(** Position [j] holds a segment to land on, or one to skip. *)
Definition landing (j : Z) : Prop := isEmpty j = Ok false.

Definition skip_target (j : Z) : Prop := isEmpty j = Ok true.

Definition some_landing (lo hi : Z) : Prop :=
  exists j, (lo <= j <= hi)%Z /\ landing j.

(** [i] is the first landing position at or after [c]. *)
Definition first_landing_from (c i : Z) : Prop :=
  (c <= i)%Z /\ landing i /\ forall j, (c <= j < i)%Z -> skip_target j.

(** [i] is the last landing position at or before [c]. *)
Definition last_landing_upto (c i : Z) : Prop :=
  (i <= c)%Z /\ landing i /\ forall j, (i < j <= c)%Z -> skip_target j.

(** There is a segment to land on where the call searches: from the clamped
    index to the end for ["next"], from it down to the start for ["prev"];
    without a direction, forward from the clamped index or else backward
    from [index] itself. *)
Definition searched (index : Z) (direction : option Direction) : Prop :=
  match direction with
  | Some Next =>
      some_landing (clamp_index index) (Z.of_nat (length segments) - 1)
  | Some Prev => some_landing 0 (clamp_index index)
  | None =>
      some_landing (clamp_index index) (Z.of_nat (length segments) - 1) \/
      some_landing 0 index
  end.

End Navigation.

(** ** The scroll controller *)

Module Scroll.

Local Open Scope Q_scope.

Definition SPEED_MIN : Z := 1.
Definition SPEED_MAX : Z := 10.
Definition PX_PER_SEC_BASE : Z := 5.
Definition PX_PER_SEC_PER_UNIT : Z := 3.
Definition LINE_STEP_PX : Z := 28.

Definition getPxPerSecond (speed : Z) : Z :=
  (PX_PER_SEC_BASE + speed * PX_PER_SEC_PER_UNIT)%Z.

(** [a < b] on numbers. *)
Definition Qlt_bool (a b : Q) : bool := negb (Qle_bool b a).

(** A rendered segment, [segmentRefs.current[i]]. *)
Record Element := {
  offsetTop : Q;
  offsetHeight : Q
}.

(** What the page has laid out: the scrolling container
    ([containerRef.current]), the content inside it ([contentRef.current])
    and the paragraphs of the segments.  A spacer is rendered without a
    ref, so its entry is [None]. *)
Record Dom := {
  clientHeight : Q;             (* container.clientHeight *)
  container_scrollHeight : Q;   (* container.scrollHeight *)
  content_scrollHeight : Q;     (* content.scrollHeight *)
  segmentRefs : list (option Element)
}.

(** The state of the view: React state, refs and the scroll position of
    the container.  [scrollTop] is written by [goToSegment] and
    [handleReset] and read by [getCurrentSegmentIndex] and the scroll
    listener; the effect that copies each new [scrollPosition] to
    [container.scrollTop], where the browser bounds it, is not part of the
    operations below. *)
Record View := {
  playing : bool;
  currentSpeed : Z;
  scrollPosition : Q;
  maxScroll : Q;          (* maxScroll.current *)
  viewportHeight : Q;     (* viewportHeight.current *)
  lastTime : Q;           (* lastTimeRef.current, in milliseconds *)
  scrollTop : Q           (* container.scrollTop *)
}.

Definition setPlaying (p : bool) (v : View) : View :=
  {| playing := p; currentSpeed := currentSpeed v;
     scrollPosition := scrollPosition v; maxScroll := maxScroll v;
     viewportHeight := viewportHeight v; lastTime := lastTime v;
     scrollTop := scrollTop v |}.

Definition setCurrentSpeed (s : Z) (v : View) : View :=
  {| playing := playing v; currentSpeed := s;
     scrollPosition := scrollPosition v; maxScroll := maxScroll v;
     viewportHeight := viewportHeight v; lastTime := lastTime v;
     scrollTop := scrollTop v |}.

Definition setScrollPosition (x : Q) (v : View) : View :=
  {| playing := playing v; currentSpeed := currentSpeed v;
     scrollPosition := x; maxScroll := maxScroll v;
     viewportHeight := viewportHeight v; lastTime := lastTime v;
     scrollTop := scrollTop v |}.

Definition setGeometry (height max : Q) (v : View) : View :=
  {| playing := playing v; currentSpeed := currentSpeed v;
     scrollPosition := scrollPosition v; maxScroll := max;
     viewportHeight := height; lastTime := lastTime v;
     scrollTop := scrollTop v |}.

Definition setLastTime (t : Q) (v : View) : View :=
  {| playing := playing v; currentSpeed := currentSpeed v;
     scrollPosition := scrollPosition v; maxScroll := maxScroll v;
     viewportHeight := viewportHeight v; lastTime := t;
     scrollTop := scrollTop v |}.

Definition setScrollTop (x : Q) (v : View) : View :=
  {| playing := playing v; currentSpeed := currentSpeed v;
     scrollPosition := scrollPosition v; maxScroll := maxScroll v;
     viewportHeight := viewportHeight v; lastTime := lastTime v;
     scrollTop := x |}.

(** [Math.max(0, content.scrollHeight - container.clientHeight)], the
    largest offset of [updateMaxScroll], [step] and [stepScroll]. *)
Definition maxOffset (d : Dom) : Q :=
  Qmax 0 (content_scrollHeight d - clientHeight d).

(** [updateMaxScroll]; nothing happens while the view is not mounted. *)
Definition updateMaxScroll (dom : option Dom) (v : View) : View :=
  match dom with
  | None => v
  | Some d =>
      setGeometry (clientHeight d)
                  (Qmax 0 (content_scrollHeight d - clientHeight d)) v
  end.

(** The updater [step] hands to [setScrollPosition]: the next offset, and
    whether it called [setPlaying(false)]. *)
Definition step_update (speed : Z) (dt max prev : Q) : Q * bool :=
  let next := prev + inject_Z (getPxPerSecond speed) * dt in
  if Qlt_bool 0 max && Qle_bool max next then (max, true)
  else (Qmin next max, false).

(** One animation frame at time [now] (milliseconds). *)
Definition step (now : Q) (d : Dom) (v : View) : View :=
  let dt := (now - lastTime v) / 1000 in
  let max := Qmax 0 (content_scrollHeight d - clientHeight d) in
  let '(next, stop) :=
    step_update (currentSpeed v) dt max (scrollPosition v) in
  let v := setLastTime now v in
  let v := if stop then setPlaying false v else v in
  setScrollPosition next v.

(** The frame loop only runs while playing and mounted. *)
Definition frame (now : Q) (dom : option Dom) (v : View) : View :=
  match dom with
  | Some d => if playing v then step now d v else v
  | None => v
  end.

(** The speed keys: [Math.min(SPEED_MAX, s + 1)] and
    [Math.max(SPEED_MIN, s - 1)]. *)
Definition speedUp (v : View) : View :=
  setCurrentSpeed (Z.min SPEED_MAX (currentSpeed v + 1)) v.

Definition speedDown (v : View) : View :=
  setCurrentSpeed (Z.max SPEED_MIN (currentSpeed v - 1)) v.

(** The argument of [stepScroll], [1 | -1]. *)
Inductive LineDirection := Down | Up.

Definition line_sign (direction : LineDirection) : Z :=
  match direction with Down => 1 | Up => -1 end.

Definition stepScroll (direction : LineDirection) (dom : option Dom)
           (v : View) : View :=
  match dom with
  | None => v
  | Some d =>
      let max := Qmax 0 (content_scrollHeight d - clientHeight d) in
      let next :=
        scrollPosition v + inject_Z (line_sign direction * LINE_STEP_PX) in
      setScrollPosition (Qmax 0 (Qmin next max)) v
  end.

Definition handleReset (dom : option Dom) (v : View) : View :=
  let v := setScrollPosition 0 v in
  match dom with
  | Some _ => setScrollTop 0 v
  | None => v
  end.

(** The scroll listener of the container:
    [setScrollPosition(container.scrollTop)]. *)
Definition onScroll (v : View) : View :=
  setScrollPosition (scrollTop v) v.

(** [segmentRefs.current[i]], for an index the caller has clamped. *)
Definition segmentRef (d : Dom) (i : Z) : option Element :=
  match nth_error (segmentRefs d) (Z.to_nat i) with
  | Some el => el
  | None => None
  end.

Definition goToSegment (segments : list jsstring) (index : Z)
           (direction : option Direction) (dom : option Dom) (v : View)
  : outcome View :=
  if (length segments =? 0)%nat then Ok v
  else
    i <- goToSegment_index segments index direction ;;
    match dom with
    | None => Ok v
    | Some d =>
        match segmentRef d i with
        | None => Ok v
        | Some el =>
            let targetScroll :=
              offsetTop el - clientHeight d / 2 + offsetHeight el / 2 in
            let clamped :=
              Qmax 0 (Qmin targetScroll
                           (container_scrollHeight d - clientHeight d)) in
            Ok (setScrollTop clamped (setScrollPosition clamped v))
        end
    end.

(** The [for] loop of [getCurrentSegmentIndex], from index [i] with [n]
    iterations to go: the first rendered segment whose bottom edge is below
    the centre of the viewport. *)
Fixpoint first_below_center (d : Dom) (viewportCenter : Q) (i : Z) (n : nat)
  : option Z :=
  match n with
  | O => None
  | S n' =>
      match segmentRef d i with
      | None => first_below_center d viewportCenter (i + 1) n'
      | Some el =>
          let bottom := offsetTop el + offsetHeight el in
          if Qlt_bool viewportCenter bottom then Some i
          else first_below_center d viewportCenter (i + 1) n'
      end
  end.

Definition getCurrentSegmentIndex (segments : list jsstring)
           (dom : option Dom) (v : View) : Z :=
  match dom with
  | None => 0%Z
  | Some d =>
      if (length segments =? 0)%nat then 0%Z
      else
        let viewportCenter := scrollTop v + clientHeight d / 2 in
        match first_below_center d viewportCenter 0 (length segments) with
        | Some i => i
        | None => (Z.of_nat (length segments) - 1)%Z
        end
  end.

(** The ArrowDown and ArrowUp keys. *)
Definition arrowDown (segments : list jsstring) (dom : option Dom)
           (v : View) : outcome View :=
  if (1 <? length segments)%nat then
    let current := getCurrentSegmentIndex segments dom v in
    if (current <? Z.of_nat (length segments) - 1)%Z
    then goToSegment segments (current + 1) (Some Next) dom v
    else Ok (stepScroll Down dom v)
  else Ok (stepScroll Down dom v).

Definition arrowUp (segments : list jsstring) (dom : option Dom)
           (v : View) : outcome View :=
  if (1 <? length segments)%nat then
    let current := getCurrentSegmentIndex segments dom v in
    if (0 <? current)%Z
    then goToSegment segments (current - 1) (Some Prev) dom v
    else Ok (stepScroll Up dom v)
  else Ok (stepScroll Up dom v).

(** [Math.round]: the nearest integer, halves upwards. *)
Definition Math_round (x : Q) : Z := Qfloor (x + (1 # 2)).

(** [progressPercent], shown under the text:
    [maxScroll.current > 0
       ? Math.round((scrollPosition / maxScroll.current) * 100) : 0]. *)
Definition progressPercent (v : View) : Z :=
  if Qlt_bool 0 (maxScroll v)
  then Math_round (scrollPosition v / maxScroll v * 100)
  else 0%Z.

(** The distance covered at a given speed between two times (in
    milliseconds). *)
Definition travel (speed : Z) (from to : Q) : Q :=
  inject_Z (getPxPerSecond speed) * ((to - from) / 1000).

(** [0 <= offset <= maxOffset] *)
Definition in_range (d : Dom) (v : View) : Prop :=
  0 <= scrollPosition v /\ scrollPosition v <= maxOffset d.

(** *** Worked layouts *)

(** A view that has just received its configuration: at the top, paused,
    speed 5. *)
Definition initial_view : View :=
  {| playing := false; currentSpeed := 5; scrollPosition := 0;
     maxScroll := 0; viewportHeight := 0; lastTime := 0; scrollTop := 0 |}.

(** A layout with [maxOffset = 100] and one with [maxOffset = 15]. *)
Definition dom_100 : Dom :=
  {| clientHeight := 200; container_scrollHeight := 316;
     content_scrollHeight := 300; segmentRefs := [] |}.

Definition dom_15 : Dom :=
  {| clientHeight := 200; container_scrollHeight := 231;
     content_scrollHeight := 215; segmentRefs := [] |}.

(** The text ["a\nb\nc"] as the page lays it out: three paragraphs of 32
    pixels, two spacers of 8, 4 and 16 pixels of padding inside the
    content, 132 pixels in all, and 8 pixels of padding above and below it
    in the container. *)
Definition refs_a_b_c : list (option Element) :=
  [Some {| offsetTop := 12; offsetHeight := 32 |}; None;
   Some {| offsetTop := 52; offsetHeight := 32 |}; None;
   Some {| offsetTop := 92; offsetHeight := 32 |}].

(** In a window 60 pixels high. *)
Definition dom_a_b_c : Dom :=
  {| clientHeight := 60; container_scrollHeight := 148;
     content_scrollHeight := 132; segmentRefs := refs_a_b_c |}.

(** In a window 140 pixels high: the content fits, the container with its
    padding does not. *)
Definition dom_short_content : Dom :=
  {| clientHeight := 140; container_scrollHeight := 148;
     content_scrollHeight := 132; segmentRefs := refs_a_b_c |}.

(** In a window 200 pixels high: nothing to scroll. *)
Definition dom_tall_window : Dom :=
  {| clientHeight := 200; container_scrollHeight := 200;
     content_scrollHeight := 132; segmentRefs := refs_a_b_c |}.

(** The viewport grows from 100 to 180 pixels over a content of 200. *)
Definition dom_before_resize : Dom :=
  {| clientHeight := 100; container_scrollHeight := 216;
     content_scrollHeight := 200; segmentRefs := [] |}.

Definition dom_after_resize : Dom :=
  {| clientHeight := 180; container_scrollHeight := 216;
     content_scrollHeight := 200; segmentRefs := [] |}.

End Scroll.

(** ** Rest of the segmenter's surroundings *)

(** A character that [trim] keeps. *)
Definition nonws (c : char) : bool := negb (is_ws c).

(** The characters of a text other than whitespace, in order. *)
Definition visible (s : jsstring) : jsstring := filter nonws s.

(** [segments] of the view: [config?.text ? getSegments(config.text) : []];
    [None] is the view before its configuration arrived. *)
Definition view_segments (text : option jsstring) : list jsstring :=
  match text with
  | None => []
  | Some [] => []
  | Some t => getSegments t
  end.

(** The text [handleStart] of the configuration view sends:
    [const trimmed = text.trim(); if (!trimmed) return;]; [None] when it
    returns without opening the teleprompter. *)
Definition handleStart (text : jsstring) : option jsstring :=
  match trim text with
  | [] => None
  | trimmed => Some trimmed
  end.

(** A text starts with a character that [trim] keeps, or is empty. *)
Definition head_kept (s : jsstring) : Prop :=
  match s with
  | [] => True
  | c :: _ => is_ws c = false
  end.

(** Equality of strings is decidable. *)
Definition jsstring_eq_dec : forall a b : jsstring, {a = b} + {a <> b} :=
  list_eq_dec N.eq_dec.

(** ** Placing the teleprompter window ([electron/main.ts]) *)

Module Main.

Local Open Scope Z_scope.

Inductive Alignment :=
| TopLeft | Top | TopRight
| Left | Middle | Right
| BottomLeft | Bottom | BottomRight.

Inductive WindowHeight := Small | Medium | Large.

(** A rectangle of the screen, in whole pixels. *)
Record Rectangle := {
  x : Z;
  y : Z;
  width : Z;
  height : Z
}.

Definition TELEPROMPTER_WIDTH : Z := 720.

Definition TELEPROMPTER_HEIGHT_MAP (h : WindowHeight) : Z :=
  match h with
  | Small => 275
  | Medium => 350
  | Large => 475
  end.

(** [Math.round(n / 2)] for an integer [n]: halves round upwards. *)
Definition round_half (n : Z) : Z := (n + 1) / 2.

(** [getBoundsForAlignment], with the work area of the primary display
    passed in.  The [default] branch of the [switch] is for a value outside
    the nine of the type. *)
Definition getBoundsForAlignment (workArea : Rectangle)
           (alignment : Alignment) (height : Z) : Rectangle :=
  let wx := x workArea in
  let wy := y workArea in
  let sw := width workArea in
  let sh := Main.height workArea in
  let w := TELEPROMPTER_WIDTH in
  let h := height in
  match alignment with
  | TopLeft => {| x := wx; y := wy; width := w; height := h |}
  | Top =>
      {| x := wx + round_half (sw - w); y := wy; width := w; height := h |}
  | TopRight => {| x := wx + sw - w; y := wy; width := w; height := h |}
  | Left =>
      {| x := wx; y := wy + round_half (sh - h); width := w; height := h |}
  | Middle =>
      {| x := wx + round_half (sw - w); y := wy + round_half (sh - h);
         width := w; height := h |}
  | Right =>
      {| x := wx + sw - w; y := wy + round_half (sh - h);
         width := w; height := h |}
  | BottomLeft => {| x := wx; y := wy + sh - h; width := w; height := h |}
  | Bottom =>
      {| x := wx + round_half (sw - w); y := wy + sh - h;
         width := w; height := h |}
  | BottomRight =>
      {| x := wx + sw - w; y := wy + sh - h; width := w; height := h |}
  end.

(** The bounds [createTeleprompterWindow] gives a new window:
    [payload.alignment ?? "middle"], [payload.windowHeight ?? "medium"]. *)
Definition teleprompter_bounds (workArea : Rectangle)
           (alignment : option Alignment) (windowHeight : option WindowHeight)
  : Rectangle :=
  let alignment := match alignment with Some a => a | None => Middle end in
  let windowHeight :=
    match windowHeight with Some h => h | None => Medium end in
  let height := TELEPROMPTER_HEIGHT_MAP windowHeight in
  getBoundsForAlignment workArea alignment height.

(** One rectangle lies within another. *)
Definition inside (r area : Rectangle) : Prop :=
  x area <= x r /\ x r + width r <= x area + width area /\
  y area <= y r /\ y r + height r <= y area + height area.

End Main.

(** ** The name of a loaded file (configuration view) *)








(** * Properties *)

(** ** Strings *)

Section StringFacts.

Lemma trimStart_length (s : jsstring) : length (trimStart s) <= length s.
Proof.
  induction s as [|c s IH]; simpl; [lia|].
  destruct (is_ws c); simpl; lia.
Qed.

Lemma trimEnd_length (s : jsstring) : length (trimEnd s) <= length s.
Proof.
  unfold trimEnd. rewrite length_rev, <- (length_rev s).
  apply trimStart_length.
Qed.

Lemma trim_length (s : jsstring) : length (trim s) <= length s.
Proof.
  unfold trim.
  etransitivity; [apply trimStart_length | apply trimEnd_length].
Qed.

Lemma trimEnd_snoc_ws (s : jsstring) (c : char) :
  is_ws c = true -> trimEnd (s ++ [c]) = trimEnd s.
Proof.
  intros Hc. unfold trimEnd. rewrite rev_app_distr. simpl.
  now rewrite Hc.
Qed.

Lemma trim_snoc_ws_length (s : jsstring) (c : char) :
  is_ws c = true -> length (trim (s ++ [c])) <= length s.
Proof.
  intros Hc. unfold trim. rewrite (trimEnd_snoc_ws s c Hc).
  apply trim_length.
Qed.

Lemma lastIndexOf_from_spec (c : char) (s : jsstring) (i found : Z) :
  lastIndexOf_from c s i found = found \/
  ((i <= lastIndexOf_from c s i found < i + Z.of_nat (length s))%Z /\
   nth_error s (Z.to_nat (lastIndexOf_from c s i found - i)) = Some c).
Proof.
  revert i found.
  induction s as [|x s IH]; intros i found; simpl; [now left|].
  destruct (IH (i + 1)%Z (if (x =? c)%N then i else found)) as [E|[Hr Hn]].
  - rewrite E. destruct (N.eqb_spec x c) as [->|_]; [right|now left].
    split; [lia|]. now rewrite Z.sub_diag.
  - right. split; [lia|].
    replace (Z.to_nat (lastIndexOf_from c s (i + 1)
                         (if (x =? c)%N then i else found) - i))
      with (S (Z.to_nat (lastIndexOf_from c s (i + 1)
                         (if (x =? c)%N then i else found) - (i + 1))))
      by lia.
    exact Hn.
Qed.

Lemma lastIndexOf_found (c : char) (s : jsstring) :
  (0 < lastIndexOf c s)%Z ->
  (lastIndexOf c s < Z.of_nat (length s))%Z /\
  nth_error s (Z.to_nat (lastIndexOf c s)) = Some c.
Proof.
  unfold lastIndexOf. intros Hpos.
  destruct (lastIndexOf_from_spec c s 0 (-1)) as [E|[Hr Hn]]; [lia|].
  rewrite Z.sub_0_r in Hn. split; [lia | exact Hn].
Qed.

Lemma firstn_succ_nth_error (A : Type) (l : list A) (n : nat) (x : A) :
  nth_error l n = Some x -> firstn (S n) l = firstn n l ++ [x].
Proof.
  revert n. induction l as [|a l IH]; intros [|n] H; simpl in *;
    try discriminate.
  - now inversion H.
  - f_equal. now apply IH.
Qed.

Lemma nth_error_firstn_some (A : Type) (l : list A) (m n : nat) (x : A) :
  nth_error (firstn m l) n = Some x -> nth_error l n = Some x.
Proof.
  revert m n. induction l as [|a l IH]; intros [|m] [|n] H; simpl in *;
    try discriminate; auto.
  now apply IH with (m := m).
Qed.

End StringFacts.

(** ** The wrap loop *)

Section Wrapping.

Lemma SPACE_is_ws : is_ws SPACE = true.
Proof. reflexivity. Qed.

Lemma breakAt_bounds (rest : jsstring) :
  1 <= breakAt rest <= MAX_CHARS_PER_LINE + 1.
Proof.
  unfold breakAt.
  destruct (Z.ltb_spec 0
     (lastIndexOf SPACE (slice_to (MAX_CHARS_PER_LINE + 1) rest)))
    as [Hpos|_]; [|unfold MAX_CHARS_PER_LINE; lia].
  destruct (lastIndexOf_found _ _ Hpos) as [Hlt _].
  unfold slice_to in *. rewrite length_firstn in Hlt. lia.
Qed.

Lemma chunk_of_length (rest : jsstring) :
  length (chunk_of rest) <= MAX_CHARS_PER_LINE.
Proof.
  unfold chunk_of, breakAt.
  destruct (Z.ltb_spec 0
     (lastIndexOf SPACE (slice_to (MAX_CHARS_PER_LINE + 1) rest)))
    as [Hpos|_].
  - destruct (lastIndexOf_found _ _ Hpos) as [Hlt Hn].
    set (r := lastIndexOf SPACE (slice_to (MAX_CHARS_PER_LINE + 1) rest))
      in *.
    unfold slice_to in *.
    apply nth_error_firstn_some in Hn.
    replace (Z.to_nat (r + 1)) with (S (Z.to_nat r)) by lia.
    rewrite (firstn_succ_nth_error _ _ _ _ Hn).
    etransitivity; [apply (trim_snoc_ws_length _ _ SPACE_is_ws)|].
    rewrite length_firstn in *. lia.
  - etransitivity; [apply trim_length|].
    unfold slice_to. rewrite length_firstn. lia.
Qed.

Lemma rest_after_length (rest : jsstring) :
  MAX_CHARS_PER_LINE < length rest ->
  length (rest_after rest) < length rest.
Proof.
  intros Hlong. unfold rest_after, slice_from.
  eapply Nat.le_lt_trans; [apply trim_length|].
  rewrite length_skipn. pose proof (breakAt_bounds rest). lia.
Qed.

Lemma wrap_loop_chunks (rest : jsstring) :
  Forall (fun c => length c <= MAX_CHARS_PER_LINE) (wrap_loop rest).
Proof.
  funelim (wrap_loop rest).
  - constructor.
  - constructor; [assumption | constructor].
  - constructor; [apply chunk_of_length | assumption].
Qed.

Lemma wrap_iter_enough (fuel : nat) :
  forall (chunks : list jsstring) (rest : jsstring),
    length rest < fuel ->
    wrap_iter fuel chunks rest = Some (chunks ++ wrap_loop rest).
Proof.
  induction fuel as [|fuel IH]; intros chunks rest Hfuel; [lia|].
  simpl. simp wrap_loop.
  destruct (le_lt_dec (length rest) 0) as [Hz|Hnz]; simpl.
  - replace (length rest =? 0) with true by (symmetry; apply Nat.eqb_eq; lia).
    now rewrite app_nil_r.
  - replace (length rest =? 0) with false
      by (symmetry; apply Nat.eqb_neq; lia).
    destruct (le_lt_dec (length rest) MAX_CHARS_PER_LINE) as [Hs|Hl]; simpl.
    + replace (length rest <=? MAX_CHARS_PER_LINE) with true
        by (symmetry; apply Nat.leb_le; lia).
      reflexivity.
    + replace (length rest <=? MAX_CHARS_PER_LINE) with false
        by (symmetry; apply Nat.leb_gt; lia).
      rewrite IH by (pose proof (rest_after_length _ Hl); lia).
      now rewrite <- app_assoc.
Qed.

Lemma splitLongSegment_chunks (segment : jsstring) :
  Forall (fun c => length c <= MAX_CHARS_PER_LINE) (splitLongSegment segment).
Proof.
  unfold splitLongSegment.
  destruct (Nat.leb_spec (length segment) MAX_CHARS_PER_LINE).
  - constructor; [assumption | constructor].
  - apply wrap_loop_chunks.
Qed.

End Wrapping.

(** C10. The greedy wrap loop of [splitLongSegment] terminates: run one
    iteration per unit of fuel, it exits within [length rest + 1]
    iterations with the chunks of [wrap_loop]; and in every iteration whose
    remainder is longer than [MAX_CHARS_PER_LINE] the break position is at
    least 1 and the next remainder is strictly shorter. *)
Theorem wrap_loop_terminates (rest : jsstring) (chunks : list jsstring) :
  wrap_iter (S (length rest)) chunks rest = Some (chunks ++ wrap_loop rest) /\
  (MAX_CHARS_PER_LINE < length rest ->
   1 <= breakAt rest /\ length (rest_after rest) < length rest).
Proof.
  split.
  - apply wrap_iter_enough. lia.
  - intros Hlong. split.
    + apply breakAt_bounds.
    + now apply rest_after_length.
Qed.

(** C3. Every segment produced by [getSegments] that is not a spacer has at
    most [MAX_CHARS_PER_LINE] = 72 characters, the chunks of wrapped parts
    included. *)
Theorem getSegments_length_bound (text : jsstring) :
  MAX_CHARS_PER_LINE = 72 /\
  Forall (fun seg => seg <> SPACER -> length seg <= MAX_CHARS_PER_LINE)
         (getSegments text).
Proof.
  split; [reflexivity|].
  unfold getSegments. apply Forall_forall. intros seg Hin _.
  apply in_flat_map in Hin. destruct Hin as [part [_ Hin]].
  pose proof (splitLongSegment_chunks part) as Hall.
  rewrite Forall_forall in Hall. now apply Hall.
Qed.

(** ** Splitting the text *)

Section Splitting.

Lemma re_paragraph_newline (s : jsstring) :
  re_paragraph (NL :: s) = Some (S (class_run [NL; NL] s)).
Proof. reflexivity. Qed.

Lemma re_paragraph_other (c : char) (s : jsstring) :
  c <> NL -> re_paragraph (c :: s) = None.
Proof.
  intros Hc. unfold re_paragraph, re_alt, re_class_plus, re_char. simpl.
  destruct (N.eqb_spec c NL); [contradiction|]. reflexivity.
Qed.

Lemma re_line_other (c : char) (s : jsstring) :
  c <> NL -> re_line (c :: s) = None.
Proof.
  intros Hc. unfold re_line, re_char.
  destruct (N.eqb_spec c NL); [contradiction|]. reflexivity.
Qed.

Lemma class_run_newlines (k : nat) (s : jsstring) :
  no_leading_newline s -> class_run [NL; NL] (repeat NL k ++ s) = k.
Proof.
  intros Hs. induction k as [|k IH]; simpl.
  - destruct s as [|c s]; [reflexivity|]. simpl in *.
    destruct (N.eqb_spec c NL); [contradiction|]. reflexivity.
  - now rewrite IH.
Qed.

Lemma split_loop_skip (re : matcher) (piece : jsstring) (k : nat)
      (s : jsstring) :
  split_loop re piece k (repeat NL k ++ s) = split_loop re piece 0 s.
Proof.
  induction k as [|k IH]; simpl; [reflexivity|]. exact IH.
Qed.

Lemma split_loop_separator (re : matcher) (piece : jsstring) (c : char)
      (s : jsstring) (k : nat) :
  re (c :: s) = Some (S k) ->
  split_loop re piece 0 (c :: s) = piece :: split_loop re [] k s.
Proof. intros H. simpl. now rewrite H. Qed.

Lemma split_loop_text (re : matcher) (q : jsstring) :
  (forall c s, c <> NL -> re (c :: s) = None) ->
  ~ In NL q ->
  forall piece s,
    split_loop re piece 0 (q ++ s) = split_loop re (piece ++ q) 0 s.
Proof.
  intros Hre. induction q as [|c q IH]; intros Hq piece s; simpl.
  - now rewrite app_nil_r.
  - assert (Hc : c <> NL) by (intros ->; apply Hq; now left).
    rewrite (Hre c (q ++ s) Hc).
    rewrite IH by (intros Hin; apply Hq; now right).
    now rewrite <- app_assoc.
Qed.

Lemma join_runs_no_leading_newline (q : jsstring)
      (more : list (nat * jsstring)) :
  ~ In NL q -> (more <> [] -> q <> []) ->
  no_leading_newline (join_runs q more).
Proof.
  intros Hq Hne. destruct q as [|c q].
  - destruct more as [|kq more]; [exact I|].
    exfalso. now apply Hne.
  - assert (Hc : c <> NL) by (intros ->; apply Hq; now left).
    destruct more as [|[k q'] more]; exact Hc.
Qed.

Lemma split_loop_join_runs (more : list (nat * jsstring)) :
  forall (piece q : jsstring),
    ~ In NL q -> parts_ok more ->
    split_loop re_paragraph piece 0 (join_runs q more)
    = (piece ++ q) :: map snd more.
Proof.
  induction more as [|[k q'] more IH]; intros piece q Hq Hok; simpl.
  - rewrite <- (app_nil_r q) at 1.
    now rewrite (split_loop_text re_paragraph q re_paragraph_other Hq).
  - destruct Hok as (Hq' & Hne & Hok).
    rewrite (split_loop_text re_paragraph q re_paragraph_other Hq).
    change (repeat NL (S k) ++ join_runs q' more)
      with (NL :: (repeat NL k ++ join_runs q' more)).
    rewrite (split_loop_separator re_paragraph (piece ++ q) NL _ k).
    + rewrite split_loop_skip. f_equal. now apply IH.
    + rewrite re_paragraph_newline.
      rewrite class_run_newlines
        by now apply join_runs_no_leading_newline.
      reflexivity.
Qed.

Lemma split_is_split_loop (s : jsstring) :
  split re_paragraph s = split_loop re_paragraph [] 0 s.
Proof. destruct s; reflexivity. Qed.

Lemma byParagraph_join_runs (p : jsstring) (more : list (nat * jsstring)) :
  ~ In NL p -> parts_ok more ->
  byParagraph (join_runs p more) = p :: map snd more.
Proof.
  intros Hp Hok. unfold byParagraph. rewrite split_is_split_loop.
  now rewrite split_loop_join_runs.
Qed.

Lemma byLine_no_newline (p : jsstring) : ~ In NL p -> byLine p = [p].
Proof.
  intros Hp. unfold byLine, split.
  destruct p as [|c p]; [reflexivity|].
  pose proof (split_loop_text re_line (c :: p) re_line_other Hp [] []) as H.
  rewrite app_nil_r in H. exact H.
Qed.

(** Every text is made of newline-free parts separated by runs of newlines. *)
Lemma join_runs_complete (text : jsstring) :
  exists p more, text = join_runs p more /\ ~ In NL p /\ parts_ok more.
Proof.
  induction text as [|c text (p & more & E & Hp & Hok)].
  - exists [], []. split; [reflexivity|]. split; [intros []|exact I].
  - destruct (N.eq_dec c NL) as [->|Hc].
    + destruct p as [|c' p'].
      * destruct more as [|[k q] more'].
        -- exists [], [(0, [])]. subst text.
           split; [reflexivity|]. split; [intros []|].
           split; [intros []|]. split; [|exact I].
           intros H. now contradiction H.
        -- exists [], ((S k, q) :: more'). subst text.
           split; [reflexivity|]. split; [intros []|exact Hok].
      * exists [], ((0, c' :: p') :: more). subst text.
        split; [reflexivity|]. split; [intros []|].
        split; [exact Hp|]. split; [discriminate|exact Hok].
    + exists (c :: p), more. subst text.
      split; [destruct more as [|[k q] more']; reflexivity|].
      split; [|assumption].
      intros [H|H]; [now apply Hc | now apply Hp].
Qed.

End Splitting.

Section Segmenter.

Lemma flatMap_spacers_succ (i : nat) (segments : list jsstring) :
  flatMap_spacers (S i) segments
  = flat_map (fun s => [SPACER; s]) segments.
Proof.
  revert i. induction segments as [|s more IH]; intros i; simpl;
    [reflexivity|].
  now rewrite IH.
Qed.

Lemma withEmptyBetween_cons (p : jsstring) (parts : list jsstring) :
  withEmptyBetween (p :: parts)
  = p :: flat_map (fun s => [SPACER; s]) parts.
Proof.
  unfold withEmptyBetween. destruct parts as [|q parts]; [reflexivity|].
  simpl. now rewrite flatMap_spacers_succ.
Qed.

Lemma splitLongSegment_SPACER : splitLongSegment SPACER = [SPACER].
Proof. reflexivity. Qed.

Lemma segments_of_join_runs (p : jsstring) (more : list (nat * jsstring)) :
  ~ In NL p -> parts_ok more ->
  segments_of (join_runs p more) = p :: map snd more.
Proof.
  intros Hp Hok. unfold segments_of.
  rewrite (byParagraph_join_runs p more Hp Hok).
  destruct more as [|kq more]; [|reflexivity].
  simpl. now rewrite (byLine_no_newline p Hp).
Qed.

(** The line-by-line fallback of [getSegments] never contributes. *)
Lemma segments_of_byParagraph (text : jsstring) :
  segments_of text = byParagraph text.
Proof.
  destruct (join_runs_complete text) as (p & more & -> & Hp & Hok).
  rewrite (segments_of_join_runs p more Hp Hok).
  now rewrite (byParagraph_join_runs p more Hp Hok).
Qed.

End Segmenter.

(** C1, as stated, fails: in ["a\nb\n\nc"], which has a two-newline
    boundary, the single newline between [a] and [b] starts a new segment;
    the segmenter of the specification keeps ["a\nb"] together. *)
Lemma getSegments_paragraph_counterexample :
  getSegments_spec text_a_b__c
  = [of_string "a" ++ [NL] ++ of_string "b"; SPACER; of_string "c"] /\
  getSegments text_a_b__c
  = [of_string "a"; SPACER; of_string "b"; SPACER; of_string "c"] /\
  getSegments text_a_b__c <> getSegments_spec text_a_b__c.
Proof.
  split; [reflexivity|]. split; [reflexivity|]. discriminate.
Qed.

(** C1 (amended). The segmenter splits at every run of one or more
    newlines, whether or not the text also has a longer run: a text made of
    newline-free parts separated by runs of newlines (only the last part
    after a run may be empty) yields exactly those parts, a spacer before
    each part but the first, each part wrapped on its own; a text without
    newline is one part. *)
Theorem getSegments_splits_on_newline_runs
        (p : jsstring) (more : list (nat * jsstring)) :
  ~ In NL p -> parts_ok more ->
  segments_of (join_runs p more) = p :: map snd more /\
  getSegments (join_runs p more)
  = splitLongSegment p
    ++ flat_map (fun kq => SPACER :: splitLongSegment (snd kq)) more.
Proof.
  intros Hp Hok. split; [now apply segments_of_join_runs|].
  unfold getSegments.
  rewrite (segments_of_join_runs p more Hp Hok), withEmptyBetween_cons.
  simpl. f_equal.
  clear. induction more as [|[k q] more IH]; simpl; [reflexivity|].
  now rewrite IH.
Qed.

Lemma getSegments_splits_on_newline_runs_witness :
  segments_of text_a_b__c = [of_string "a"; of_string "b"; of_string "c"] /\
  getSegments text_a_b__c
  = [of_string "a"; SPACER; of_string "b"; SPACER; of_string "c"].
Proof.
  apply (getSegments_splits_on_newline_runs
           (of_string "a") [(0, of_string "b"); (1, of_string "c")]).
  - simpl. intros [H|[]]. discriminate H.
  - simpl. repeat split; try discriminate.
    + intros [H|[]]. discriminate H.
    + intros [H|[]]. discriminate H.
Defined.

(** ** Choosing the segment *)

Section NavigationFacts.

Variable segments : list jsstring.

Let len : Z := Z.of_nat (length segments).

Lemma isEmpty_in_range (j : Z) :
  (0 <= j < len)%Z -> exists b, isEmpty segments j = Ok b.
Proof.
  intros Hj. unfold isEmpty.
  replace ((0 <=? j) && (j <? Z.of_nat (length segments)))%Z with true
    by (symmetry; apply andb_true_iff; subst len; lia).
  destruct (nth_error segments (Z.to_nat j)) as [s|] eqn:E; [eauto|].
  apply nth_error_None in E. subst len. lia.
Qed.

Lemma isEmpty_out_of_range (j : Z) :
  (j < 0 \/ len <= j)%Z -> isEmpty segments j = TypeError.
Proof.
  intros Hj. unfold isEmpty.
  replace ((0 <=? j) && (j <? Z.of_nat (length segments)))%Z with false;
    [reflexivity|].
  symmetry. apply andb_false_iff. subst len. lia.
Qed.

Lemma walk_next_spec (i : Z) :
  (0 <= i)%Z ->
  exists r, walk_next segments i = Ok r /\ (i <= r)%Z /\
            (i <= len -> r <= len)%Z /\
            (forall j, (i <= j < r)%Z -> isEmpty segments j = Ok true) /\
            ((r < len)%Z -> isEmpty segments r = Ok false).
Proof.
  funelim (walk_next segments i); intros Hi.
  - exists i. subst len. repeat split; try lia.
  - match goal with
    | IH : (0 <= i + 1)%Z -> _ |- _ =>
        destruct IH as (r & E & Hle & Hlen & Hskip & Hland); [lia|]
    end.
    exists r. split; [exact E|]. split; [lia|].
    split; [subst len; lia|]. split; [|exact Hland].
    intros j Hj. destruct (Z.eq_dec j i) as [->|Hne]; [assumption|].
    apply Hskip. lia.
  - exists i. repeat split; try lia; auto.
  - match goal with
    | E : isEmpty segments i = TypeError |- _ =>
        destruct (isEmpty_in_range i) as [b Hb];
        [subst len; lia | rewrite Hb in E; discriminate E]
    end.
Qed.

Lemma walk_prev_spec (i : Z) :
  (i < len)%Z ->
  exists r, walk_prev segments i = Ok r /\ (r <= i)%Z /\
            (-1 <= i -> -1 <= r)%Z /\
            (forall j, (r < j <= i)%Z -> isEmpty segments j = Ok true) /\
            ((0 <= r)%Z -> isEmpty segments r = Ok false).
Proof.
  funelim (walk_prev segments i); intros Hi.
  - exists i. repeat split; try lia.
  - match goal with
    | IH : (i - 1 < len)%Z -> _ |- _ =>
        destruct IH as (r & E & Hle & Hlow & Hskip & Hland); [lia|]
    end.
    exists r. split; [exact E|]. split; [lia|].
    split; [lia|]. split; [|exact Hland].
    intros j Hj. destruct (Z.eq_dec j i) as [->|Hne]; [assumption|].
    apply Hskip. lia.
  - exists i. repeat split; try lia; auto.
  - match goal with
    | E : isEmpty segments i = TypeError |- _ =>
        destruct (isEmpty_in_range i) as [b Hb];
        [subst len; lia | rewrite Hb in E; discriminate E]
    end.
Qed.

Lemma walk_prev_out_of_range (i : Z) :
  (len <= i)%Z -> walk_prev segments i = TypeError.
Proof.
  intros Hi. simp walk_prev.
  destruct (Z_le_dec 0 i) as [Hpos|Hneg]; [|subst len; lia]. simpl.
  rewrite isEmpty_out_of_range by (right; exact Hi). reflexivity.
Qed.

Hypothesis nonempty : segments <> [].

Lemma segments_length_pos : (1 <= len)%Z.
Proof.
  subst len. destruct segments; [contradiction|]. simpl length. lia.
Qed.

Lemma clamp_index_range (index : Z) :
  (0 <= clamp_index segments index < len)%Z.
Proof.
  pose proof segments_length_pos. unfold clamp_index. fold len. lia.
Qed.

(** Unfold [goToSegment_index] down to its test of the clamped index. *)
Ltac open_goToSegment_index index :=
  unfold goToSegment_index; fold len;
  change (Z.max 0 (Z.min index (len - 1)))
    with (clamp_index segments index).

(** A landing position in a stretch where every position is skipped. *)
Ltac no_landing_among Hskip Hjl :=
  unfold landing in Hjl; rewrite Hskip in Hjl by lia; discriminate Hjl.

Lemma goToSegment_index_next (index : Z) :
  exists i, goToSegment_index segments index (Some Next) = Ok i /\
            (0 <= i < len)%Z /\
            (some_landing segments (clamp_index segments index) (len - 1) ->
             first_landing_from segments (clamp_index segments index) i).
Proof.
  open_goToSegment_index index.
  pose proof (clamp_index_range index) as Hc.
  destruct (isEmpty_in_range (clamp_index segments index) Hc) as [[|] Hb];
    rewrite Hb; simpl.
  - destruct (walk_next_spec (clamp_index segments index))
      as (r & E & Hle & Hr & Hskip & Hland); [lia|].
    rewrite E. simpl. eexists. split; [reflexivity|]. split; [lia|].
    intros (j & Hj & Hjl).
    assert (Hrl : (r < len)%Z).
    { destruct (Z_lt_dec r len) as [|Hge]; [assumption|].
      no_landing_among Hskip Hjl. }
    replace (Z.min r (len - 1)) with r by lia.
    split; [lia|]. split; [now apply Hland | exact Hskip].
  - exists (clamp_index segments index). split; [reflexivity|]. split; [lia|].
    intros _. split; [lia|]. split; [exact Hb|]. intros j Hj. lia.
Qed.

Lemma goToSegment_index_prev (index : Z) :
  exists i, goToSegment_index segments index (Some Prev) = Ok i /\
            (0 <= i < len)%Z /\
            (some_landing segments 0 (clamp_index segments index) ->
             last_landing_upto segments (clamp_index segments index) i).
Proof.
  open_goToSegment_index index.
  pose proof (clamp_index_range index) as Hc.
  destruct (isEmpty_in_range (clamp_index segments index) Hc) as [[|] Hb];
    rewrite Hb; simpl.
  - destruct (walk_prev_spec (clamp_index segments index))
      as (r & E & Hle & Hr & Hskip & Hland); [lia|].
    rewrite E. simpl. eexists. split; [reflexivity|]. split; [lia|].
    intros (j & Hj & Hjl).
    assert (Hrl : (0 <= r)%Z).
    { destruct (Z_le_dec 0 r) as [|Hge]; [assumption|].
      no_landing_among Hskip Hjl. }
    replace (Z.max r 0) with r by lia.
    split; [lia|]. split; [now apply Hland | exact Hskip].
  - exists (clamp_index segments index). split; [reflexivity|]. split; [lia|].
    intros _. split; [lia|]. split; [exact Hb|]. intros j Hj. lia.
Qed.

Lemma goToSegment_index_forward_first (index : Z) :
  some_landing segments (clamp_index segments index) (len - 1) ->
  exists i, goToSegment_index segments index None = Ok i /\
            first_landing_from segments (clamp_index segments index) i.
Proof.
  intros (j & Hj & Hjl).
  open_goToSegment_index index.
  pose proof (clamp_index_range index) as Hc.
  destruct (isEmpty_in_range (clamp_index segments index) Hc) as [[|] Hb];
    rewrite Hb; simpl.
  - destruct (walk_next_spec (clamp_index segments index))
      as (r & E & Hle & Hr & Hskip & Hland); [lia|].
    rewrite E. simpl.
    assert (Hrl : (r < len)%Z).
    { destruct (Z_lt_dec r len) as [|Hge]; [assumption|].
      no_landing_among Hskip Hjl. }
    replace (len <=? r)%Z with false by (symmetry; apply Z.leb_gt; lia).
    replace (Z.min r (len - 1)) with r by lia.
    eexists. split; [reflexivity|].
    split; [lia|]. split; [now apply Hland | exact Hskip].
  - exists (clamp_index segments index). split; [reflexivity|].
    split; [lia|]. split; [exact Hb|]. intros k Hk. lia.
Qed.

Lemma forward_runs_off (index : Z) :
  ~ some_landing segments (clamp_index segments index) (len - 1) ->
  isEmpty segments (clamp_index segments index) = Ok true /\
  walk_next segments (clamp_index segments index) = Ok len.
Proof.
  intros Hnone.
  pose proof (clamp_index_range index) as Hc.
  destruct (isEmpty_in_range (clamp_index segments index) Hc) as [[|] Hb].
  - split; [exact Hb|].
    destruct (walk_next_spec (clamp_index segments index))
      as (r & E & Hle & Hr & Hskip & Hland); [lia|].
    rewrite E. f_equal.
    destruct (Z_lt_dec r len) as [Hlt|Hge]; [|lia].
    exfalso. apply Hnone. exists r. split; [lia|]. now apply Hland.
  - exfalso. apply Hnone. exists (clamp_index segments index).
    split; [lia | exact Hb].
Qed.

Lemma goToSegment_index_then_backward (index : Z) :
  ~ some_landing segments (clamp_index segments index) (len - 1) ->
  (index < len)%Z ->
  exists i, goToSegment_index segments index None = Ok i /\
            (0 <= i < len)%Z /\
            (some_landing segments 0 index ->
             last_landing_upto segments index i).
Proof.
  pose proof segments_length_pos as Hlen. intros Hnone Hin.
  destruct (forward_runs_off index Hnone) as [Hb Hw].
  open_goToSegment_index index.
  rewrite Hb. simpl. rewrite Hw. simpl. rewrite Z.leb_refl.
  destruct (walk_prev_spec index Hin) as (r & E & Hle & Hr & Hskip & Hland).
  rewrite E. simpl. eexists. split; [reflexivity|]. split; [lia|].
  intros (j & Hj & Hjl).
  assert (Hrl : (0 <= r)%Z).
  { destruct (Z_le_dec 0 r) as [|Hge]; [assumption|].
    no_landing_among Hskip Hjl. }
  replace (Z.max r 0) with r by lia.
  split; [lia|]. split; [now apply Hland | exact Hskip].
Qed.

(** Without a direction, an index past the end and nothing to land on from
    the last segment on: the backward walk starts at [segments[index]],
    which is [undefined]. *)
Lemma goToSegment_index_throws (index : Z) :
  ~ some_landing segments (clamp_index segments index) (len - 1) ->
  (len <= index)%Z ->
  goToSegment_index segments index None = TypeError.
Proof.
  intros Hnone Hout.
  destruct (forward_runs_off index Hnone) as [Hb Hw].
  open_goToSegment_index index.
  rewrite Hb. simpl. rewrite Hw. simpl. rewrite Z.leb_refl.
  now rewrite walk_prev_out_of_range.
Qed.

Lemma some_landing_forward_dec (index : Z) :
  some_landing segments (clamp_index segments index) (len - 1) \/
  ~ some_landing segments (clamp_index segments index) (len - 1).
Proof.
  pose proof (clamp_index_range index) as Hc.
  destruct (walk_next_spec (clamp_index segments index))
    as (r & E & Hle & Hr & Hskip & Hland); [lia|].
  destruct (Z_lt_dec r len) as [Hlt|Hge].
  - left. exists r. split; [lia|]. now apply Hland.
  - right. intros (j & Hj & Hjl). no_landing_among Hskip Hjl.
Qed.

(** C6. For a non-empty segment list and any index, [goToSegment] never
    lands on a skip target (a spacer or a text whose trimmed content is
    empty) when a segment to land on exists where it searches.  With
    ["next"] it returns the first landing position at or after the clamped
    index, with ["prev"] the last one at or before it; without a direction
    it walks forward first and, only when that walk runs off the end, walks
    backward from [index] itself. *)
Theorem goToSegment_index_skips (index : Z) :
  (forall direction i,
      goToSegment_index segments index direction = Ok i ->
      searched segments index direction -> landing segments i) /\
  (exists i, goToSegment_index segments index (Some Next) = Ok i /\
             (0 <= i < len)%Z /\
             (some_landing segments (clamp_index segments index) (len - 1) ->
              first_landing_from segments (clamp_index segments index) i)) /\
  (exists i, goToSegment_index segments index (Some Prev) = Ok i /\
             (0 <= i < len)%Z /\
             (some_landing segments 0 (clamp_index segments index) ->
              last_landing_upto segments (clamp_index segments index) i)) /\
  (some_landing segments (clamp_index segments index) (len - 1) ->
   exists i, goToSegment_index segments index None = Ok i /\
             first_landing_from segments (clamp_index segments index) i) /\
  (~ some_landing segments (clamp_index segments index) (len - 1) ->
   (index < len)%Z ->
   exists i, goToSegment_index segments index None = Ok i /\
             (0 <= i < len)%Z /\
             (some_landing segments 0 index ->
              last_landing_upto segments index i)).
Proof.
  split; [|split; [apply goToSegment_index_next|
           split; [apply goToSegment_index_prev|
           split; [apply goToSegment_index_forward_first|
                   apply goToSegment_index_then_backward]]]].
  intros [[|]|] i Hi Hs; simpl in Hs.
  - destruct (goToSegment_index_next index) as (i0 & E & _ & Hl).
    rewrite E in Hi. injection Hi as <-. now apply Hl.
  - destruct (goToSegment_index_prev index) as (i0 & E & _ & Hl).
    rewrite E in Hi. injection Hi as <-. now apply Hl.
  - destruct (some_landing_forward_dec index) as [Hf|Hnf].
    + destruct (goToSegment_index_forward_first index Hf) as (i0 & E & Hl).
      rewrite E in Hi. injection Hi as <-. apply Hl.
    + destruct Hs as [Hf|Hb]; [contradiction|].
      destruct (Z_lt_dec index len) as [Hin|Hout].
      * destruct (goToSegment_index_then_backward index Hnf Hin)
          as (i0 & E & _ & Hl).
        rewrite E in Hi. injection Hi as <-. now apply Hl.
      * rewrite goToSegment_index_throws in Hi by (assumption || lia).
        discriminate Hi.
Qed.

End NavigationFacts.

(** The segments of ["a\nb\n\nc"]: [a], spacer, [b], spacer, [c]. *)
Lemma getSegments_a_b__c :
  getSegments text_a_b__c
  = [of_string "a"; SPACER; of_string "b"; SPACER; of_string "c"].
Proof. reflexivity. Qed.

Lemma goToSegment_index_skips_witness :
  exists i,
    goToSegment_index (getSegments text_a_b__c) 1 (Some Next) = Ok i /\
    landing (getSegments text_a_b__c) i.
Proof.
  assert (Hne : getSegments text_a_b__c <> [])
    by (rewrite getSegments_a_b__c; discriminate).
  destruct (goToSegment_index_skips (getSegments text_a_b__c) Hne 1)
    as (_ & (i & E & _ & Hfirst) & _).
  exists i. split; [exact E|].
  apply Hfirst. exists 2%Z. split; [vm_compute; intuition discriminate|].
  reflexivity.
Defined.

(** ** The scroll controller *)

Module ScrollFacts.

Import Scroll.
Local Open Scope Q_scope.

Lemma Qlt_bool_iff (a b : Q) : Qlt_bool a b = true <-> a < b.
Proof.
  unfold Qlt_bool. rewrite negb_true_iff.
  destruct (Qle_bool b a) eqn:E.
  - apply Qle_bool_iff in E. split; [discriminate|].
    intros H. exfalso. apply (Qlt_not_le _ _ H E).
  - split; [|reflexivity]. intros _. apply Qnot_le_lt. intros H.
    apply Qle_bool_iff in H. congruence.
Qed.

Lemma maxOffset_nonneg (d : Dom) : 0 <= maxOffset d.
Proof. unfold maxOffset. apply Q.le_max_l. Qed.

(** What [step_update] returns, case by case. *)
Lemma step_update_cases (speed : Z) (dt max prev : Q) :
  let next := prev + inject_Z (getPxPerSecond speed) * dt in
  (0 < max /\ max <= next /\ step_update speed dt max prev = (max, true)) \/
  (~ (0 < max /\ max <= next) /\
   step_update speed dt max prev = (Qmin next max, false)).
Proof.
  intros next. unfold step_update. fold next.
  destruct (Qlt_bool 0 max) eqn:E1; simpl.
  - destruct (Qle_bool max next) eqn:E2.
    + left. apply Qlt_bool_iff in E1. apply Qle_bool_iff in E2. auto.
    + right. split; [|reflexivity]. intros [_ H].
      apply Qle_bool_iff in H. congruence.
  - right. split; [|reflexivity]. intros [H _].
    apply Qlt_bool_iff in H. congruence.
Qed.

Lemma step_scrollPosition (now : Q) (d : Dom) (v : View) :
  scrollPosition (step now d v)
  = fst (step_update (currentSpeed v) ((now - lastTime v) / 1000)
                     (maxOffset d) (scrollPosition v)).
Proof.
  unfold step, maxOffset.
  destruct (step_update _ _ _ _) as [next stop]. reflexivity.
Qed.

Lemma step_playing (now : Q) (d : Dom) (v : View) :
  playing (step now d v)
  = if snd (step_update (currentSpeed v) ((now - lastTime v) / 1000)
                        (maxOffset d) (scrollPosition v))
    then false else playing v.
Proof.
  unfold step, maxOffset.
  destruct (step_update _ _ _ _) as [next [|]]; reflexivity.
Qed.

Lemma step_scrollPosition_min (now : Q) (d : Dom) (v : View) :
  scrollPosition (step now d v)
  == Qmin (scrollPosition v
           + inject_Z (getPxPerSecond (currentSpeed v))
             * ((now - lastTime v) / 1000))
          (maxOffset d).
Proof.
  rewrite step_scrollPosition.
  destruct (step_update_cases (currentSpeed v) ((now - lastTime v) / 1000)
              (maxOffset d) (scrollPosition v)) as [(_ & Hle & E)|(_ & E)];
    rewrite E; simpl; [|reflexivity].
  symmetry. now apply Q.min_r.
Qed.

(** C7. A frame sets the offset to
    [min(offset + (BASE + speed * PER_UNIT_SPEED) * deltaSeconds, maxOffset)],
    where [deltaSeconds] is the time since the previous frame in seconds,
    [BASE = 5] and [PER_UNIT_SPEED = 3]; at speed 5 that is 20 pixels per
    second, and one second from offset 0 with [maxOffset = 100] gives
    offset 20. *)
Theorem step_offset_formula (now : Q) (d : Dom) (v : View) :
  scrollPosition (step now d v)
  == Qmin (scrollPosition v
           + inject_Z (PX_PER_SEC_BASE + currentSpeed v * PX_PER_SEC_PER_UNIT)
             * ((now - lastTime v) / 1000))
          (maxOffset d)
  /\ (PX_PER_SEC_BASE = 5 /\ PX_PER_SEC_PER_UNIT = 3 /\
      getPxPerSecond 5 = 20)%Z
  /\ (currentSpeed v = 5%Z -> (now - lastTime v) / 1000 == 1 ->
      scrollPosition v == 0 -> maxOffset d == 100 ->
      scrollPosition (step now d v) == 20).
Proof.
  split; [apply step_scrollPosition_min|]. split; [repeat split|].
  intros Hspeed Hdt Hprev Hmax. rewrite step_scrollPosition_min, Hspeed.
  change (inject_Z (getPxPerSecond 5)) with 20.
  set (dt := (now - lastTime v) / 1000) in *.
  destruct (Q.min_spec (scrollPosition v + 20 * dt) (maxOffset d))
    as [[_ ->]|[Hle ->]]; lra.
Qed.

(** C4. When a frame while playing leaves the offset at [maxOffset] and
    [maxOffset > 0], that frame has stopped the playback. *)
Theorem step_pauses_at_end (now : Q) (d : Dom) (v : View) :
  playing v = true -> 0 < maxOffset d ->
  scrollPosition (frame now (Some d) v) == maxOffset d ->
  playing (frame now (Some d) v) = false.
Proof.
  intros Hplay Hpos. unfold frame. rewrite Hplay.
  rewrite step_scrollPosition, step_playing.
  destruct (step_update_cases (currentSpeed v) ((now - lastTime v) / 1000)
              (maxOffset d) (scrollPosition v)) as [(_ & _ & E)|(Hn & E)];
    rewrite E; simpl; [reflexivity|].
  intros Hend. exfalso. apply Hn. split; [exact Hpos|].
  now apply Q.min_r_iff.
Qed.

(** C8, as stated, fails.  The viewport has grown from 100 to 180 pixels
    over a content of 200 while the offset was 50, so [maxOffset] is 20 and
    the offset still 50; a frame with [deltaSeconds = 0] then sets the
    offset to 20 and stops the playback. *)
Lemma step_zero_delta_counterexample :
  let v := setPlaying true
             (updateMaxScroll (Some dom_after_resize)
                (setScrollPosition 50
                   (updateMaxScroll (Some dom_before_resize) initial_view))) in
  (0 - lastTime v) / 1000 == 0 /\
  scrollPosition v == 50 /\
  maxOffset dom_after_resize == 20 /\
  scrollPosition (step 0 dom_after_resize v) == 20 /\
  playing (step 0 dom_after_resize v) = false /\
  ~ scrollPosition (step 0 dom_after_resize v) == scrollPosition v.
Proof.
  cbv zeta. repeat split; try reflexivity. vm_compute. discriminate.
Qed.

(** C8 (amended). A frame with [deltaSeconds = 0], in a state whose offset
    is at most [maxOffset], leaves the offset unchanged. *)
Theorem step_zero_delta (now : Q) (d : Dom) (v : View) :
  (now - lastTime v) / 1000 == 0 ->
  scrollPosition v <= maxOffset d ->
  scrollPosition (step now d v) == scrollPosition v.
Proof.
  intros Hdt Hinv.
  rewrite step_scrollPosition_min.
  change (getPxPerSecond (currentSpeed v))
    with (PX_PER_SEC_BASE + currentSpeed v * PX_PER_SEC_PER_UNIT)%Z.
  set (dt := (now - lastTime v) / 1000) in *.
  set (pps :=
         inject_Z (PX_PER_SEC_BASE + currentSpeed v * PX_PER_SEC_PER_UNIT)).
  assert (Hnext : scrollPosition v + pps * dt == scrollPosition v)
    by (rewrite Hdt; ring).
  destruct (Q.min_spec (scrollPosition v + pps * dt) (maxOffset d))
    as [[_ ->]|[Hle ->]]; [exact Hnext|].
  rewrite Hnext in Hle. now apply Qle_antisym.
Qed.

Lemma step_offset_formula_witness :
  scrollPosition (step 1000 dom_100 initial_view) == 20.
Proof.
  apply (step_offset_formula 1000 dom_100 initial_view);
    vm_compute; reflexivity.
Defined.

(** Playing at offset 8 with [maxOffset = 15]: half a second at speed 5
    computes 18, the frame leaves 15 and stops. *)
Lemma step_pauses_at_end_witness :
  playing (frame 500 (Some dom_15)
                 (setPlaying true (setScrollPosition 8 initial_view)))
  = false.
Proof.
  apply step_pauses_at_end; vm_compute; reflexivity.
Defined.

Lemma step_zero_delta_witness :
  scrollPosition (step 0 dom_100 (setScrollPosition 40 initial_view)) == 40.
Proof.
  apply (step_zero_delta 0 dom_100 (setScrollPosition 40 initial_view)).
  - vm_compute. reflexivity.
  - vm_compute. discriminate.
Defined.

(** *** The range of the offset *)

Lemma step_in_range (now : Q) (d : Dom) (v : View) :
  0 <= scrollPosition v -> lastTime v <= now ->
  (0 <= getPxPerSecond (currentSpeed v))%Z ->
  in_range d (step now d v).
Proof.
  intros Hprev Hnow Hspeed. unfold in_range.
  rewrite step_scrollPosition_min.
  pose proof (maxOffset_nonneg d) as Hmax.
  set (dt := (now - lastTime v) / 1000).
  assert (Hdt : 0 <= dt).
  { unfold dt. apply Qle_shift_div_l; [reflexivity|]. lra. }
  assert (Hpps : 0 <= inject_Z (getPxPerSecond (currentSpeed v))).
  { change 0 with (inject_Z 0). now rewrite <- Zle_Qle. }
  pose proof (Qmult_le_0_compat _ _ Hpps Hdt) as Hadd.
  destruct (Q.min_spec
              (scrollPosition v
               + inject_Z (getPxPerSecond (currentSpeed v)) * dt)
              (maxOffset d)) as [[Hlt ->]|[Hle ->]]; split; lra.
Qed.

Lemma stepScroll_in_range (direction : LineDirection) (d : Dom) (v : View) :
  in_range d (stepScroll direction (Some d) v).
Proof.
  unfold in_range, stepScroll. simpl. fold (maxOffset d).
  pose proof (maxOffset_nonneg d) as Hmax.
  set (next :=
         scrollPosition v + inject_Z (line_sign direction * LINE_STEP_PX)).
  split; [apply Q.le_max_l|].
  apply Q.max_lub; [exact Hmax | apply Q.le_min_r].
Qed.

Lemma handleReset_in_range (dom : option Dom) (d : Dom) (v : View) :
  in_range d (handleReset dom v).
Proof.
  pose proof (maxOffset_nonneg d) as Hmax.
  unfold in_range, handleReset. destruct dom; simpl; split; lra.
Qed.

(** [goToSegment] keeps the offset within the scroll range of the
    container, [container.scrollHeight - container.clientHeight]. *)
Lemma goToSegment_in_container_range
      (segments : list jsstring) (index : Z) (direction : option Direction)
      (d : Dom) (v v' : View) :
  0 <= scrollPosition v ->
  scrollPosition v <= Qmax 0 (container_scrollHeight d - clientHeight d) ->
  goToSegment segments index direction (Some d) v = Ok v' ->
  0 <= scrollPosition v' /\
  scrollPosition v' <= Qmax 0 (container_scrollHeight d - clientHeight d).
Proof.
  intros Hlo Hhi. unfold goToSegment.
  destruct (length segments =? 0)%nat;
    [intros H; injection H as <-; now split|].
  destruct (goToSegment_index segments index direction) as [i|];
    simpl; [|discriminate].
  destruct (segmentRef d i) as [el|];
    [|intros H; injection H as <-; now split].
  intros H; injection H as <-. simpl.
  split; [apply Q.le_max_l|].
  apply Q.max_lub; [apply Q.le_max_l|].
  eapply Qle_trans; [apply Q.le_min_r | apply Q.le_max_r].
Qed.

(** C2, at a failing input.  ["a\nb\nc"] in a window 60 pixels high, from
    the top: the first ArrowDown centres [b] at offset 38, the second centres
    [c] at offset 78, inside the scroll range of the container (88) but past
    [maxOffset] = 72. *)
Theorem goToSegment_exceeds_maxOffset :
  let segments := getSegments text_a_b_c in
  let v0 := updateMaxScroll (Some dom_a_b_c) initial_view in
  in_range dom_a_b_c v0 /\
  maxOffset dom_a_b_c == 72 /\
  exists v1 v2,
    arrowDown segments (Some dom_a_b_c) v0 = Ok v1 /\
    arrowDown segments (Some dom_a_b_c) v1 = Ok v2 /\
    scrollPosition v1 == 38 /\
    scrollPosition v2 == 78 /\
    ~ in_range dom_a_b_c v2.
Proof.
  cbv zeta. split; [split; vm_compute; discriminate|].
  split; [reflexivity|].
  eexists. eexists. split; [vm_compute; reflexivity|].
  split; [vm_compute; reflexivity|].
  split; [reflexivity|]. split; [reflexivity|].
  intros [_ H]. vm_compute in H. now apply H.
Qed.

(** C5, as stated, fails: [updateMaxScroll] does not clamp the offset. *)
Lemma updateMaxScroll_clamp_counterexample :
  let v := setScrollPosition 50
             (updateMaxScroll (Some dom_before_resize) initial_view) in
  let v' := updateMaxScroll (Some dom_after_resize) v in
  (0 <= scrollPosition v /\ scrollPosition v <= maxScroll v) /\
  maxScroll v' == 20 /\
  ~ (0 <= scrollPosition v' /\ scrollPosition v' <= maxScroll v').
Proof.
  cbv zeta. split; [split; vm_compute; discriminate|].
  split; [reflexivity|].
  intros [_ H]. vm_compute in H. now apply H.
Qed.

(** C5 (amended). [updateMaxScroll] records the viewport height and sets
    [maxOffset = max(0, contentHeight - viewportHeight)]; it leaves the
    offset, the play state and the speed as they are; calling it twice
    with the same layout gives the same state as calling it once. *)
Theorem updateMaxScroll_spec (d : Dom) (v : View) :
  let v' := updateMaxScroll (Some d) v in
  maxScroll v' = Qmax 0 (content_scrollHeight d - clientHeight d) /\
  viewportHeight v' = clientHeight d /\
  scrollPosition v' = scrollPosition v /\
  playing v' = playing v /\
  currentSpeed v' = currentSpeed v /\
  updateMaxScroll (Some d) v' = v'.
Proof. cbv zeta. repeat split. Qed.

(** C9, at a failing input.  ["a\nb\nc"] in a window 140 pixels high: the
    content, 132 pixels, fits, so [maxOffset = 0], and the view is at offset
    0.  ArrowDown goes to the last segment and moves the offset to 8: the
    container, with its padding, scrolls that far, and [goToSegment] clamps
    against the container. *)
Theorem goToSegment_moves_at_zero_maxOffset :
  let segments := getSegments text_a_b_c in
  let v0 := updateMaxScroll (Some dom_short_content) initial_view in
  maxOffset dom_short_content == 0 /\
  maxScroll v0 == 0 /\
  scrollPosition v0 == 0 /\
  exists v1,
    arrowDown segments (Some dom_short_content) v0 = Ok v1 /\
    goToSegment segments 3 (Some Next) (Some dom_short_content) v0 = Ok v1 /\
    scrollPosition v1 == 8 /\
    ~ scrollPosition v1 == 0.
Proof.
  cbv zeta. split; [reflexivity|]. split; [reflexivity|].
  split; [reflexivity|].
  eexists. split; [vm_compute; reflexivity|].
  split; [vm_compute; reflexivity|].
  split; [reflexivity|]. vm_compute. discriminate.
Qed.

(** When [maxOffset = 0] a frame (with time not running backwards and a
    speed of at least [SPEED_MIN]) and a line step, starting from offset 0,
    leave the offset at 0; they and [goToSegment] with a direction return
    without an exception. *)
Lemma degenerate_geometry_no_op (d : Dom) (v : View) :
  maxOffset d == 0 -> scrollPosition v == 0 ->
  (forall now, lastTime v <= now -> (SPEED_MIN <= currentSpeed v)%Z ->
               scrollPosition (step now d v) == 0) /\
  (forall direction,
      scrollPosition (stepScroll direction (Some d) v) == 0) /\
  (forall segments index direction,
      exists v', goToSegment segments index (Some direction) (Some d) v
                 = Ok v').
Proof.
  intros Hmax Hzero. split; [|split].
  - intros now Hnow Hspeed.
    destruct (step_in_range now d v) as [Hlo Hhi];
      [lra | exact Hnow | unfold getPxPerSecond, SPEED_MIN,
         PX_PER_SEC_BASE, PX_PER_SEC_PER_UNIT in *; lia |].
    apply Qle_antisym; lra.
  - intros direction.
    destruct (stepScroll_in_range direction d v) as [Hlo Hhi].
    apply Qle_antisym; lra.
  - intros segments index direction. unfold goToSegment.
    destruct (length segments =? 0)%nat eqn:E; [eauto|].
    assert (Hne : segments <> [])
      by (intros ->; discriminate E).
    assert (Hi : exists i,
               goToSegment_index segments index (Some direction) = Ok i).
    { destruct direction.
      - destruct (goToSegment_index_next segments Hne index) as (i & Ei & _).
        eauto.
      - destruct (goToSegment_index_prev segments Hne index) as (i & Ei & _).
        eauto. }
    destruct Hi as [i ->]. simpl.
    destruct (segmentRef d i); eauto.
Qed.

Lemma degenerate_geometry_no_op_example :
  scrollPosition (step 16 dom_tall_window initial_view) == 0 /\
  scrollPosition (stepScroll Down (Some dom_tall_window) initial_view) == 0.
Proof.
  destruct (degenerate_geometry_no_op dom_tall_window initial_view)
    as (Hstep & Hline & _); [reflexivity | reflexivity |].
  split; [apply Hstep; vm_compute; discriminate | apply Hline].
Defined.

End ScrollFacts.

(** * Further properties *)

(** ** Trimming *)

Section TrimFacts.

Lemma visible_trimStart (s : jsstring) : visible (trimStart s) = visible s.
Proof.
  unfold visible. induction s as [|c s IH]; simpl; [reflexivity|].
  unfold nonws at 2. destruct (is_ws c) eqn:E; simpl; [exact IH|].
  unfold nonws at 1. now rewrite E.
Qed.

Lemma visible_rev (s : jsstring) : visible (rev s) = rev (visible s).
Proof.
  unfold visible. induction s as [|c s IH]; simpl; [reflexivity|].
  rewrite filter_app, IH. simpl.
  destruct (nonws c); simpl; [reflexivity | now rewrite app_nil_r].
Qed.

Lemma visible_trim (s : jsstring) : visible (trim s) = visible s.
Proof.
  unfold trim, trimEnd.
  now rewrite visible_trimStart, visible_rev, visible_trimStart,
    visible_rev, rev_involutive.
Qed.

Lemma visible_app (a b : jsstring) : visible (a ++ b) = visible a ++ visible b.
Proof. apply filter_app. Qed.

Lemma visible_nil_iff (s : jsstring) :
  visible s = [] <-> forall c, In c s -> is_ws c = true.
Proof.
  unfold visible. induction s as [|c s IH]; simpl.
  - split; [intros _ x [] | reflexivity].
  - unfold nonws at 1. destruct (is_ws c) eqn:E; simpl.
    + rewrite IH. split.
      * intros H x [<-|Hx]; [exact E | now apply H].
      * intros H x Hx. apply H. now right.
    + split; [discriminate|]. intros H.
      specialize (H c (or_introl eq_refl)). congruence.
Qed.

Lemma trimStart_head_kept (s : jsstring) : head_kept (trimStart s).
Proof.
  induction s as [|c s IH]; simpl; [exact I|].
  destruct (is_ws c) eqn:E; [exact IH | exact E].
Qed.

Lemma trimStart_fixed (s : jsstring) : head_kept s -> trimStart s = s.
Proof.
  destruct s as [|c s]; simpl; [reflexivity|]. now intros ->.
Qed.

Lemma trimStart_suffix (s : jsstring) : exists pre, s = pre ++ trimStart s.
Proof.
  induction s as [|c s [pre IH]]; simpl; [now exists []|].
  destruct (is_ws c).
  - exists (c :: pre). simpl. now f_equal.
  - now exists [].
Qed.

Lemma head_kept_rev_suffix (pre z : jsstring) :
  head_kept (rev (pre ++ z)) -> head_kept (rev z).
Proof.
  rewrite rev_app_distr. destruct (rev z) as [|c t]; simpl; auto.
Qed.

Lemma trim_head_kept (s : jsstring) : head_kept (trim s).
Proof. apply trimStart_head_kept. Qed.

Lemma trim_last_kept (s : jsstring) : head_kept (rev (trim s)).
Proof.
  unfold trim, trimEnd.
  destruct (trimStart_suffix (rev (trimStart (rev s)))) as [pre E].
  apply (head_kept_rev_suffix pre). rewrite <- E, rev_involutive.
  apply trimStart_head_kept.
Qed.

Lemma trim_fixed (s : jsstring) :
  head_kept s -> head_kept (rev s) -> trim s = s.
Proof.
  intros Hh Hl. unfold trim, trimEnd.
  rewrite (trimStart_fixed (rev s) Hl), rev_involutive.
  now apply trimStart_fixed.
Qed.

Lemma trim_idempotent (s : jsstring) : trim (trim s) = trim s.
Proof. apply trim_fixed; [apply trim_head_kept | apply trim_last_kept]. Qed.

Lemma trim_fixed_inv (s : jsstring) :
  trim s = s -> head_kept s /\ head_kept (rev s).
Proof.
  intros E. rewrite <- E. split; [apply trim_head_kept | apply trim_last_kept].
Qed.

Lemma trimStart_incl (s : jsstring) : incl (trimStart s) s.
Proof.
  destruct (trimStart_suffix s) as [pre E]. intros x Hx.
  rewrite E. apply in_or_app. now right.
Qed.

Lemma trim_incl (s : jsstring) : incl (trim s) s.
Proof.
  unfold trim, trimEnd. intros x Hx.
  apply trimStart_incl, in_rev in Hx.
  now apply trimStart_incl, in_rev in Hx.
Qed.

Lemma trim_nonempty (s : jsstring) (c : char) :
  In c s -> is_ws c = false -> trim s <> [].
Proof.
  intros Hin Hc E.
  assert (Hv : visible s = []) by (rewrite <- visible_trim, E; reflexivity).
  rewrite visible_nil_iff in Hv. specialize (Hv c Hin). congruence.
Qed.

Lemma is_skip_false_iff (s : jsstring) : is_skip s = false <-> trim s <> [].
Proof.
  unfold is_skip, string_eqb.
  destruct (list_eq_dec _ _ _) as [E|E]; intuition congruence.
Qed.

End TrimFacts.

(** ** Wrapping, continued *)

Section WrappingMore.

Lemma wrap_loop_nil : wrap_loop [] = [].
Proof. reflexivity. Qed.

Lemma wrap_loop_short (rest : jsstring) :
  0 < length rest <= MAX_CHARS_PER_LINE -> wrap_loop rest = [rest].
Proof.
  intros H. simp wrap_loop.
  destruct (le_lt_dec (length rest) 0); simpl; [lia|].
  destruct (le_lt_dec (length rest) MAX_CHARS_PER_LINE); simpl;
    [reflexivity | lia].
Qed.

Lemma wrap_loop_long (rest : jsstring) :
  MAX_CHARS_PER_LINE < length rest ->
  wrap_loop rest = chunk_of rest :: wrap_loop (rest_after rest).
Proof.
  intros H. rewrite wrap_loop_equation_1. simpl.
  destruct (le_lt_dec (length rest) 0); simpl;
    [unfold MAX_CHARS_PER_LINE in H; lia|].
  destruct (le_lt_dec (length rest) MAX_CHARS_PER_LINE); simpl;
    [lia | reflexivity].
Qed.

Lemma slice_to_incl (n : nat) (s : jsstring) : incl (slice_to n s) s.
Proof.
  intros x Hx. rewrite <- (firstn_skipn n s). apply in_or_app. now left.
Qed.

Lemma slice_from_incl (n : nat) (s : jsstring) : incl (slice_from n s) s.
Proof.
  intros x Hx. rewrite <- (firstn_skipn n s). apply in_or_app. now right.
Qed.

Lemma wrap_loop_visible (rest : jsstring) :
  visible (concat (wrap_loop rest)) = visible rest.
Proof.
  funelim (wrap_loop rest); simpl.
  - destruct rest; [reflexivity | simpl in *; lia].
  - now rewrite app_nil_r.
  - rewrite visible_app.
    match goal with IH : visible _ = visible _ |- _ => rewrite IH end.
    unfold chunk_of, rest_after, slice_to, slice_from.
    rewrite !visible_trim, <- visible_app. now rewrite firstn_skipn.
Qed.

Lemma wrap_loop_incl (rest : jsstring) :
  forall chunk, In chunk (wrap_loop rest) -> incl chunk rest.
Proof.
  funelim (wrap_loop rest); intros chunk Hin; simpl in Hin.
  - contradiction.
  - destruct Hin as [<-|[]]. apply incl_refl.
  - destruct Hin as [<-|Hin].
    + unfold chunk_of. intros x Hx.
      now apply trim_incl, slice_to_incl in Hx.
    + match goal with H : forall c, In c _ -> incl c _ |- _ =>
        pose proof (H chunk Hin) as IH end.
      intros x Hx. apply IH in Hx. unfold rest_after in Hx.
      now apply trim_incl, slice_from_incl in Hx.
Qed.

Lemma chunk_of_nonempty (rest : jsstring) :
  rest <> [] -> head_kept rest -> chunk_of rest <> [].
Proof.
  intros Hne Hh. destruct rest as [|c rest]; [contradiction|].
  simpl in Hh. apply (trim_nonempty _ c); [|exact Hh].
  unfold slice_to. pose proof (breakAt_bounds (c :: rest)) as [Hb _].
  destruct (breakAt (c :: rest)) as [|b]; [lia|]. now left.
Qed.

Lemma wrap_loop_trimmed (rest : jsstring) :
  trim rest = rest ->
  Forall (fun chunk => chunk <> [] /\ trim chunk = chunk) (wrap_loop rest).
Proof.
  funelim (wrap_loop rest); intros Ht.
  - constructor.
  - constructor; [|constructor]. split; [|exact Ht].
    intros ->. simpl in *. lia.
  - constructor.
    + split; [|apply trim_idempotent].
      apply chunk_of_nonempty; [|now apply trim_fixed_inv].
      intros ->. simpl in *. lia.
    + match goal with IH : _ -> Forall _ _ |- _ => apply IH end.
      apply trim_idempotent.
Qed.

End WrappingMore.

(** X1. Wrapping a segment loses nothing but whitespace: the characters of
    the chunks other than whitespace are those of the segment, in order. *)
Theorem splitLongSegment_keeps_visible (segment : jsstring) :
  visible (concat (splitLongSegment segment)) = visible segment.
Proof.
  unfold splitLongSegment.
  destruct (length segment <=? MAX_CHARS_PER_LINE).
  - simpl. now rewrite app_nil_r.
  - now rewrite wrap_loop_visible, visible_trim.
Qed.

(** X2. Every chunk of a segment longer than 72 characters is non-empty and
    has no whitespace at either end, so it is a segment to land on. *)
Theorem splitLongSegment_chunks_trimmed (segment : jsstring) :
  MAX_CHARS_PER_LINE < length segment ->
  Forall (fun chunk => chunk <> [] /\ trim chunk = chunk /\
                       is_skip chunk = false)
         (splitLongSegment segment).
Proof.
  intros Hlong. unfold splitLongSegment.
  replace (length segment <=? MAX_CHARS_PER_LINE) with false
    by (symmetry; apply Nat.leb_gt; exact Hlong).
  eapply Forall_impl; [|apply wrap_loop_trimmed, trim_idempotent].
  intros chunk [Hne Ht]. repeat split; auto.
  apply is_skip_false_iff. now rewrite Ht.
Qed.

Lemma splitLongSegment_chunks_trimmed_witness :
  Forall (fun chunk => chunk <> [] /\ trim chunk = chunk /\
                       is_skip chunk = false)
         (splitLongSegment text_long_line).
Proof.
  apply (splitLongSegment_chunks_trimmed text_long_line).
  vm_compute. lia.
Defined.

Section HardBreak.

Lemma lastIndexOf_absent (c : char) (s : jsstring) :
  ~ In c s -> forall i found, lastIndexOf_from c s i found = found.
Proof.
  induction s as [|x s IH]; intros Hc i found; simpl; [reflexivity|].
  destruct (N.eqb_spec x c) as [->|_]; [exfalso; apply Hc; now left|].
  apply IH. intros H. apply Hc. now right.
Qed.

Lemma all_kept_head (s : jsstring) :
  Forall (fun c => is_ws c = false) s -> head_kept s.
Proof. intros H. destruct H; simpl; auto. Qed.

Lemma all_kept_trim (s : jsstring) :
  Forall (fun c => is_ws c = false) s -> trim s = s.
Proof.
  intros H. apply trim_fixed; apply all_kept_head; [exact H|].
  now apply Forall_rev.
Qed.

Lemma all_kept_slice_to (n : nat) (s : jsstring) :
  Forall (fun c => is_ws c = false) s ->
  Forall (fun c => is_ws c = false) (slice_to n s).
Proof.
  rewrite !Forall_forall. intros H x Hx. now apply H, (slice_to_incl n).
Qed.

Lemma all_kept_slice_from (n : nat) (s : jsstring) :
  Forall (fun c => is_ws c = false) s ->
  Forall (fun c => is_ws c = false) (slice_from n s).
Proof.
  rewrite !Forall_forall. intros H x Hx. now apply H, (slice_from_incl n).
Qed.

Lemma all_kept_breakAt (s : jsstring) :
  Forall (fun c => is_ws c = false) s -> breakAt s = MAX_CHARS_PER_LINE.
Proof.
  intros H. unfold breakAt, lastIndexOf.
  rewrite lastIndexOf_absent; [reflexivity|].
  intros Hin. apply slice_to_incl in Hin.
  rewrite Forall_forall in H. specialize (H SPACE Hin). discriminate H.
Qed.

Lemma splitLongSegment_hard_break (s : jsstring) :
  Forall (fun c => is_ws c = false) s ->
  MAX_CHARS_PER_LINE < length s ->
  splitLongSegment s
  = slice_to MAX_CHARS_PER_LINE s
    :: splitLongSegment (slice_from MAX_CHARS_PER_LINE s).
Proof.
  intros Hs Hlong. unfold splitLongSegment at 1.
  replace (length s <=? MAX_CHARS_PER_LINE) with false
    by (symmetry; apply Nat.leb_gt; exact Hlong).
  rewrite (all_kept_trim s Hs), (wrap_loop_long s Hlong).
  unfold chunk_of, rest_after. rewrite (all_kept_breakAt s Hs).
  rewrite all_kept_trim by now apply all_kept_slice_to.
  rewrite all_kept_trim by now apply all_kept_slice_from.
  f_equal. unfold splitLongSegment.
  destruct (Nat.leb_spec (length (slice_from MAX_CHARS_PER_LINE s))
                         MAX_CHARS_PER_LINE) as [Hshort|Hl].
  - apply wrap_loop_short. split; [|exact Hshort].
    unfold slice_from. rewrite length_skipn. lia.
  - now rewrite all_kept_trim by now apply all_kept_slice_from.
Qed.

Lemma splitLongSegment_all_kept_concat (n : nat) :
  forall s, length s <= n ->
            Forall (fun c => is_ws c = false) s ->
            concat (splitLongSegment s) = s.
Proof.
  induction n as [|n IH]; intros s Hn Hs.
  - destruct s; [reflexivity | simpl in Hn; lia].
  - destruct (le_lt_dec (length s) MAX_CHARS_PER_LINE) as [Hshort|Hlong].
    + unfold splitLongSegment.
      replace (length s <=? MAX_CHARS_PER_LINE) with true
        by (symmetry; apply Nat.leb_le; exact Hshort).
      simpl. apply app_nil_r.
    + rewrite (splitLongSegment_hard_break s Hs Hlong), concat_cons.
      rewrite IH.
      * apply firstn_skipn.
      * unfold slice_from. rewrite length_skipn.
        unfold MAX_CHARS_PER_LINE in *. lia.
      * now apply all_kept_slice_from.
Qed.

End HardBreak.

(** X3. A segment longer than 72 characters with no whitespace in it is cut
    after exactly 72 characters and the rest is wrapped the same way; the
    chunks put together give the segment back. *)
Theorem splitLongSegment_without_whitespace (s : jsstring) :
  Forall (fun c => is_ws c = false) s ->
  MAX_CHARS_PER_LINE < length s ->
  splitLongSegment s
  = slice_to MAX_CHARS_PER_LINE s
    :: splitLongSegment (slice_from MAX_CHARS_PER_LINE s) /\
  length (slice_to MAX_CHARS_PER_LINE s) = 72 /\
  concat (splitLongSegment s) = s.
Proof.
  intros Hs Hlong. split; [now apply splitLongSegment_hard_break|].
  split.
  - unfold slice_to. rewrite length_firstn.
    unfold MAX_CHARS_PER_LINE in *. lia.
  - now apply (splitLongSegment_all_kept_concat (length s)).
Qed.

Lemma splitLongSegment_without_whitespace_witness :
  concat (splitLongSegment (repeat 97%N 150)) = repeat 97%N 150.
Proof.
  apply (splitLongSegment_without_whitespace (repeat 97%N 150)).
  - apply Forall_forall. intros c Hc. apply repeat_spec in Hc.
    now subst c.
  - rewrite repeat_length. unfold MAX_CHARS_PER_LINE. lia.
Defined.

(** ** The segments of a text, continued *)

Section SegmentsMore.

Lemma getSegments_join_runs (p : jsstring) (more : list (nat * jsstring)) :
  ~ In NL p -> parts_ok more ->
  getSegments (join_runs p more)
  = splitLongSegment p
    ++ flat_map (fun kq => SPACER :: splitLongSegment (snd kq)) more.
Proof.
  intros Hp Hok. unfold getSegments.
  rewrite (segments_of_join_runs p more Hp Hok), withEmptyBetween_cons.
  simpl. f_equal.
  clear. induction more as [|[k q] more IH]; simpl; [reflexivity|].
  now rewrite IH.
Qed.

Lemma splitLongSegment_visible (segment : jsstring) :
  visible (concat (splitLongSegment segment)) = visible segment.
Proof.
  unfold splitLongSegment.
  destruct (length segment <=? MAX_CHARS_PER_LINE).
  - simpl. now rewrite app_nil_r.
  - now rewrite wrap_loop_visible, visible_trim.
Qed.

Lemma visible_newlines (n : nat) : visible (repeat NL n) = [].
Proof. induction n as [|n IH]; simpl; [reflexivity | exact IH]. Qed.

Lemma visible_segments_join_runs (more : list (nat * jsstring)) :
  forall p,
    visible (concat (splitLongSegment p
                     ++ flat_map (fun kq => SPACER :: splitLongSegment (snd kq))
                                 more))
    = visible (join_runs p more).
Proof.
  induction more as [|[k q] more IH]; intros p.
  - simpl. rewrite app_nil_r. apply splitLongSegment_visible.
  - change (flat_map (fun kq => SPACER :: splitLongSegment (snd kq))
                     ((k, q) :: more))
      with ([SPACER] ++ (splitLongSegment q
            ++ flat_map (fun kq => SPACER :: splitLongSegment (snd kq)) more)).
    rewrite concat_app, visible_app, splitLongSegment_visible.
    rewrite (concat_app [SPACER]), visible_app, IH.
    change (join_runs p ((k, q) :: more))
      with (p ++ repeat NL (S k) ++ join_runs q more).
    rewrite !visible_app, visible_newlines. reflexivity.
Qed.

Lemma parts_ok_newline_free (more : list (nat * jsstring)) :
  parts_ok more -> Forall (fun kq => ~ In NL (snd kq)) more.
Proof.
  induction more as [|[k q] more IH]; intros Hok; constructor.
  - apply Hok.
  - apply IH, Hok.
Qed.

Lemma splitLongSegment_incl (segment seg : jsstring) :
  In seg (splitLongSegment segment) -> incl seg segment.
Proof.
  unfold splitLongSegment.
  destruct (length segment <=? MAX_CHARS_PER_LINE); intros Hin.
  - destruct Hin as [<-|[]]. apply incl_refl.
  - intros x Hx. apply (wrap_loop_incl _ _ Hin) in Hx.
    now apply trim_incl in Hx.
Qed.

Lemma splitLongSegment_newline_free (segment : jsstring) :
  ~ In NL segment ->
  Forall (fun seg => ~ In NL seg) (splitLongSegment segment).
Proof.
  intros Hs. apply Forall_forall. intros seg Hin Hnl.
  apply Hs. now apply (splitLongSegment_incl segment seg Hin).
Qed.

Lemma count_spacers_newline_free (l : list jsstring) :
  Forall (fun seg => ~ In NL seg) l -> count_occ jsstring_eq_dec l SPACER = 0.
Proof.
  intros H. apply count_occ_not_In. intros Hin.
  rewrite Forall_forall in H. apply (H SPACER Hin). now left.
Qed.

Lemma count_spacers_more (more : list (nat * jsstring)) :
  Forall (fun kq => ~ In NL (snd kq)) more ->
  count_occ jsstring_eq_dec
            (flat_map (fun kq => SPACER :: splitLongSegment (snd kq)) more)
            SPACER
  = length more.
Proof.
  induction 1 as [|[k q] more Hq _ IH]; [reflexivity|].
  change (flat_map (fun kq => SPACER :: splitLongSegment (snd kq))
                   ((k, q) :: more))
    with (SPACER :: splitLongSegment q
          ++ flat_map (fun kq => SPACER :: splitLongSegment (snd kq)) more).
  rewrite count_occ_cons_eq by reflexivity.
  rewrite count_occ_app, IH.
  rewrite count_spacers_newline_free
    by now apply splitLongSegment_newline_free.
  reflexivity.
Qed.

End SegmentsMore.

(** X4. Segmenting a text loses nothing but whitespace: the characters of the
    segments other than whitespace are those of the text, in order. *)
Theorem getSegments_keeps_visible (text : jsstring) :
  visible (concat (getSegments text)) = visible text.
Proof.
  destruct (join_runs_complete text) as (p & more & -> & Hp & Hok).
  rewrite (getSegments_join_runs p more Hp Hok).
  apply visible_segments_join_runs.
Qed.

(** X5. The segments of a text hold one spacer for each run of newlines, and
    no other segment contains a newline. *)
Theorem getSegments_spacers (p : jsstring) (more : list (nat * jsstring)) :
  ~ In NL p -> parts_ok more ->
  count_occ jsstring_eq_dec (getSegments (join_runs p more)) SPACER
  = length more /\
  Forall (fun seg => seg = SPACER \/ ~ In NL seg)
         (getSegments (join_runs p more)).
Proof.
  intros Hp Hok. rewrite (getSegments_join_runs p more Hp Hok).
  pose proof (parts_ok_newline_free more Hok) as Hfree. split.
  - rewrite count_occ_app, (count_spacers_more more Hfree).
    rewrite count_spacers_newline_free
      by now apply splitLongSegment_newline_free.
    reflexivity.
  - apply Forall_app. split.
    + eapply Forall_impl; [|apply splitLongSegment_newline_free, Hp].
      intros seg H. now right.
    + apply Forall_flat_map. eapply Forall_impl; [|exact Hfree].
      intros [k q] Hq. constructor; [now left|].
      eapply Forall_impl; [|apply splitLongSegment_newline_free, Hq].
      intros seg H. now right.
Qed.

Lemma getSegments_spacers_witness :
  count_occ jsstring_eq_dec (getSegments text_a_b__c) SPACER = 2.
Proof.
  apply (getSegments_spacers
           (of_string "a") [(0, of_string "b"); (1, of_string "c")]).
  - simpl. intros [H|[]]. discriminate H.
  - simpl. repeat split; try discriminate.
    + intros [H|[]]. discriminate H.
    + intros [H|[]]. discriminate H.
Defined.

(** ** Texts as the configuration view sends them *)

Section TrimmedTexts.

Let spaced (kq : nat * jsstring) : list jsstring :=
  SPACER :: splitLongSegment (snd kq).

Lemma wrap_loop_nonempty (rest : jsstring) :
  rest <> [] -> wrap_loop rest <> [].
Proof.
  intros Hne.
  destruct (le_lt_dec (length rest) MAX_CHARS_PER_LINE) as [Hs|Hl].
  - rewrite wrap_loop_short; [discriminate|].
    destruct rest; [contradiction | simpl in *; lia].
  - rewrite (wrap_loop_long rest Hl). discriminate.
Qed.

(** A segment with a visible character gives segments to land on only. *)
Lemma splitLongSegment_landing (segment : jsstring) (c : char) :
  In c segment -> is_ws c = false ->
  splitLongSegment segment <> [] /\
  Forall (fun seg => is_skip seg = false) (splitLongSegment segment).
Proof.
  intros Hin Hc. pose proof (trim_nonempty segment c Hin Hc) as Hne.
  unfold splitLongSegment.
  destruct (length segment <=? MAX_CHARS_PER_LINE).
  - split; [discriminate|]. constructor; [|constructor].
    now apply is_skip_false_iff.
  - split; [now apply wrap_loop_nonempty|].
    eapply Forall_impl;
      [|apply wrap_loop_trimmed, trim_idempotent].
    intros chunk [Hn Ht]. apply is_skip_false_iff. now rewrite Ht.
Qed.

Lemma rev_head_in (s : jsstring) (c : char) (t : jsstring) :
  rev s = c :: t -> In c s.
Proof. intros E. apply in_rev. rewrite E. now left. Qed.

Lemma newlines_not_kept_last (k : nat) (pre : jsstring) :
  ~ head_kept (rev (pre ++ repeat NL (S k))).
Proof.
  rewrite rev_app_distr.
  destruct (rev (repeat NL (S k))) as [|c t] eqn:E.
  - apply (f_equal (@length _)) in E. rewrite length_rev in E.
    discriminate E.
  - simpl. apply rev_head_in, repeat_spec in E. subst c. discriminate.
Qed.

Lemma first_part_visible (p : jsstring) (more : list (nat * jsstring)) :
  join_runs p more <> [] -> head_kept (join_runs p more) ->
  exists c, In c p /\ is_ws c = false.
Proof.
  destruct p as [|c p].
  - destruct more as [|[k q] more]; [contradiction|].
    simpl. intros _ H. discriminate H.
  - intros _ H. exists c. split; [now left|].
    destruct more as [|[k q] more]; exact H.
Qed.

Lemma last_segments_landing (more : list (nat * jsstring)) :
  forall p,
    join_runs p more <> [] -> head_kept (rev (join_runs p more)) ->
    exists front back,
      splitLongSegment p ++ flat_map spaced more = front ++ back /\
      back <> [] /\ Forall (fun seg => is_skip seg = false) back.
Proof.
  induction more as [|[k q] more IH]; intros p Hne Hlast.
  - simpl in *. destruct (rev p) as [|c t] eqn:E.
    + apply (f_equal (@length _)) in E. rewrite length_rev in E.
      destruct p; [contradiction | discriminate E].
    + simpl in Hlast.
      destruct (splitLongSegment_landing p c (rev_head_in p c t E) Hlast)
        as [Hn Hall].
      exists [], (splitLongSegment p). rewrite app_nil_r. auto.
  - change (join_runs p ((k, q) :: more))
      with (p ++ repeat NL (S k) ++ join_runs q more) in *.
    destruct (list_eq_dec N.eq_dec (join_runs q more) []) as [Ez|Hnz].
    + exfalso. rewrite Ez, app_nil_r in Hlast.
      exact (newlines_not_kept_last k p Hlast).
    + rewrite app_assoc in Hlast.
      apply head_kept_rev_suffix in Hlast.
      destruct (IH q Hnz Hlast) as (front & back & E & Hb & Hall).
      exists (splitLongSegment p ++ SPACER :: front), back.
      split; [|auto].
      change (flat_map spaced ((k, q) :: more))
        with (SPACER :: (splitLongSegment q ++ flat_map spaced more)).
      rewrite E, <- app_assoc. reflexivity.
Qed.

Lemma landing_first (segments : list jsstring) (seg : jsstring)
      (others : list jsstring) :
  segments = seg :: others -> is_skip seg = false -> landing segments 0.
Proof. intros -> H. unfold landing, isEmpty. simpl. now rewrite H. Qed.

Lemma landing_last (front back : list jsstring) :
  back <> [] -> Forall (fun seg => is_skip seg = false) back ->
  landing (front ++ back) (Z.of_nat (length (front ++ back)) - 1).
Proof.
  intros Hne Hall.
  destruct (exists_last Hne) as (back0 & x & ->).
  apply Forall_app in Hall. destruct Hall as [_ Hx].
  inversion Hx as [|? ? Hskip _]; subst.
  unfold landing, isEmpty. rewrite app_assoc.
  set (n := length ((front ++ back0) ++ [x])).
  assert (Hn : n = S (length (front ++ back0)))
    by (unfold n; rewrite length_app; simpl; lia).
  destruct ((0 <=? Z.of_nat n - 1) && (Z.of_nat n - 1 <? Z.of_nat n))%Z
    eqn:Eb; [|apply andb_false_iff in Eb; lia].
  replace (Z.to_nat (Z.of_nat n - 1)) with (length (front ++ back0)) by lia.
  rewrite nth_error_app2 by lia. rewrite Nat.sub_diag. simpl.
  now rewrite Hskip.
Qed.

Lemma trimmed_text_ends (text : jsstring) :
  text <> [] -> trim text = text ->
  getSegments text <> [] /\
  landing (getSegments text) 0 /\
  landing (getSegments text) (Z.of_nat (length (getSegments text)) - 1).
Proof.
  intros Hne Ht. apply trim_fixed_inv in Ht. destruct Ht as [Hh Hl].
  destruct (join_runs_complete text) as (p & more & -> & Hp & Hok).
  rewrite (getSegments_join_runs p more Hp Hok). fold spaced.
  destruct (first_part_visible p more Hne Hh) as (c & Hin & Hc).
  destruct (splitLongSegment_landing p c Hin Hc) as [Hn Hall].
  destruct (splitLongSegment p) as [|seg others] eqn:E; [contradiction|].
  split; [discriminate|]. split.
  - apply (landing_first _ seg (others ++ flat_map spaced more));
      [reflexivity|]. now inversion Hall.
  - rewrite <- E.
    destruct (last_segments_landing more p Hne Hl)
      as (front & back & -> & Hb & Hback).
    now apply landing_last.
Qed.

(** With segments to land on at both ends, [goToSegment] finds one
    whatever the index and the direction. *)
Lemma goToSegment_index_lands (segments : list jsstring) (index : Z)
      (direction : option Direction) :
  segments <> [] ->
  landing segments 0 ->
  landing segments (Z.of_nat (length segments) - 1) ->
  exists i, goToSegment_index segments index direction = Ok i /\
            landing segments i.
Proof.
  intros Hne Hfirst Hlast.
  pose proof (clamp_index_range segments Hne index) as Hc.
  assert (Hfwd : some_landing segments (clamp_index segments index)
                              (Z.of_nat (length segments) - 1))
    by (eexists; split; [|exact Hlast]; lia).
  assert (Hbwd : some_landing segments 0 (clamp_index segments index))
    by (eexists; split; [|exact Hfirst]; lia).
  destruct direction as [[|]|].
  - destruct (goToSegment_index_next segments Hne index)
      as (i & E & _ & H).
    exists i. split; [exact E | now apply H].
  - destruct (goToSegment_index_prev segments Hne index)
      as (i & E & _ & H).
    exists i. split; [exact E | now apply H].
  - destruct (goToSegment_index_forward_first segments Hne index Hfwd)
      as (i & E & H).
    exists i. split; [exact E | apply H].
Qed.

End TrimmedTexts.

(** X6. For a non-empty text without whitespace at either end, as the
    configuration view sends it, the segments are not empty and the first
    and the last are segments to land on (neither a spacer nor blank). *)
Theorem getSegments_trimmed_text_ends (text : jsstring) :
  text <> [] -> trim text = text ->
  getSegments text <> [] /\
  landing (getSegments text) 0 /\
  landing (getSegments text) (Z.of_nat (length (getSegments text)) - 1).
Proof. apply trimmed_text_ends. Qed.

Lemma getSegments_trimmed_text_ends_witness :
  landing (getSegments text_a_b_c) 0 /\
  landing (getSegments text_a_b_c)
          (Z.of_nat (length (getSegments text_a_b_c)) - 1).
Proof.
  apply (getSegments_trimmed_text_ends text_a_b_c);
    [discriminate | reflexivity].
Defined.

(** X7. On the segments of such a text [goToSegment] never throws and always
    settles on a segment to land on, for every index and with or without a
    direction. *)
Theorem goToSegment_index_trimmed_text (text : jsstring) (index : Z)
        (direction : option Direction) :
  text <> [] -> trim text = text ->
  exists i, goToSegment_index (getSegments text) index direction = Ok i /\
            landing (getSegments text) i.
Proof.
  intros Hne Ht.
  destruct (trimmed_text_ends text Hne Ht) as (Hs & Hfirst & Hlast).
  now apply goToSegment_index_lands.
Qed.

Lemma goToSegment_index_trimmed_text_witness :
  exists i, goToSegment_index (getSegments text_a_b_c) 7 None = Ok i /\
            landing (getSegments text_a_b_c) i.
Proof.
  apply (goToSegment_index_trimmed_text text_a_b_c 7 None);
    [discriminate | reflexivity].
Defined.

(** X8. [handleStart] sends nothing when the text is blank, and otherwise
    sends the trimmed text, which is not empty and has no whitespace at
    either end. *)
Theorem handleStart_sends_trimmed (text : jsstring) :
  (handleStart text = None <-> forall c, In c text -> is_ws c = true) /\
  (forall sent, handleStart text = Some sent ->
                sent = trim text /\ sent <> [] /\ trim sent = sent /\
                view_segments (Some sent) = getSegments sent).
Proof.
  unfold handleStart. split.
  - rewrite <- visible_nil_iff, <- visible_trim.
    destruct (trim text) as [|c t] eqn:E.
    + split; reflexivity.
    + split; [discriminate|]. intros Hv. exfalso.
      pose proof (trim_head_kept text) as Hh. rewrite E in Hh. simpl in Hh.
      assert (Hall : forall x, In x (c :: t) -> is_ws x = true)
        by now apply visible_nil_iff.
      specialize (Hall c (or_introl eq_refl)). congruence.
  - intros sent. destruct (trim text) as [|c t] eqn:E; [discriminate|].
    intros H. injection H as <-. split; [reflexivity|].
    split; [discriminate|]. split; [|reflexivity].
    rewrite <- E. apply trim_idempotent.
Qed.

(** ** The scroll controller, continued *)

Module ScrollMore.

Import Scroll ScrollFacts.
Local Open Scope Q_scope.

Lemma travel_nonneg (speed : Z) (from to : Q) :
  (SPEED_MIN <= speed)%Z -> from <= to -> 0 <= travel speed from to.
Proof.
  intros Hs Ht. unfold travel. apply Qmult_le_0_compat.
  - change 0 with (inject_Z 0). rewrite <- Zle_Qle.
    unfold getPxPerSecond, SPEED_MIN, PX_PER_SEC_BASE,
      PX_PER_SEC_PER_UNIT in *. lia.
  - apply Qle_shift_div_l; [reflexivity|]. lra.
Qed.

Lemma stepScroll_scrollPosition (direction : LineDirection) (d : Dom)
      (v : View) :
  scrollPosition (stepScroll direction (Some d) v)
  = Qmax 0 (Qmin (scrollPosition v
                  + inject_Z (line_sign direction * LINE_STEP_PX))
                 (maxOffset d)).
Proof. reflexivity. Qed.

Lemma first_below_center_spec (d : Dom) (c : Q) (n : nat) :
  forall i : Z,
    match first_below_center d c i n with
    | Some r =>
        (i <= r < i + Z.of_nat n)%Z /\
        (exists el, segmentRef d r = Some el /\
                    c < offsetTop el + offsetHeight el) /\
        (forall j el, (i <= j < r)%Z -> segmentRef d j = Some el ->
                      offsetTop el + offsetHeight el <= c)
    | None =>
        forall j el, (i <= j < i + Z.of_nat n)%Z ->
                     segmentRef d j = Some el ->
                     offsetTop el + offsetHeight el <= c
    end.
Proof.
  induction n as [|n IH]; intros i; simpl first_below_center.
  - intros j el Hj. lia.
  - destruct (segmentRef d i) as [el|] eqn:Eref.
    + destruct (Qlt_bool c (offsetTop el + offsetHeight el)) eqn:Elt.
      * apply Qlt_bool_iff in Elt. split; [lia|]. split; [eauto|].
        intros j el' Hj. lia.
      * assert (Hle : offsetTop el + offsetHeight el <= c).
        { apply Qnot_lt_le. intros H. apply Qlt_bool_iff in H. congruence. }
        specialize (IH (i + 1)%Z).
        destruct (first_below_center d c (i + 1) n) as [r|].
        -- destruct IH as (Hr & Hel & Hbefore). split; [lia|].
           split; [exact Hel|]. intros j el' Hj Hj'.
           destruct (Z.eq_dec j i) as [->|Hne].
           ++ rewrite Eref in Hj'. now injection Hj' as <-.
           ++ apply (Hbefore j el'); [lia | exact Hj'].
        -- intros j el' Hj Hj'.
           destruct (Z.eq_dec j i) as [->|Hne].
           ++ rewrite Eref in Hj'. now injection Hj' as <-.
           ++ apply (IH j el'); [lia | exact Hj'].
    + specialize (IH (i + 1)%Z).
      destruct (first_below_center d c (i + 1) n) as [r|].
      * destruct IH as (Hr & Hel & Hbefore). split; [lia|].
        split; [exact Hel|]. intros j el' Hj Hj'.
        destruct (Z.eq_dec j i) as [->|Hne]; [congruence|].
        apply (Hbefore j el'); [lia | exact Hj'].
      * intros j el' Hj Hj'.
        destruct (Z.eq_dec j i) as [->|Hne]; [congruence|].
        apply (IH j el'); [lia | exact Hj'].
Qed.

Lemma getCurrentSegmentIndex_mounted (segments : list jsstring) (d : Dom)
      (v : View) :
  segments <> [] ->
  getCurrentSegmentIndex segments (Some d) v
  = match first_below_center d (scrollTop v + clientHeight d / 2) 0
                             (length segments) with
    | Some i => i
    | None => (Z.of_nat (length segments) - 1)%Z
    end.
Proof.
  intros Hne. unfold getCurrentSegmentIndex.
  destruct segments; [contradiction | reflexivity].
Qed.

Lemma goToSegment_directed (segments : list jsstring) (index : Z)
      (direction : Direction) (dom : option Dom) (v : View) :
  exists v',
    goToSegment segments index (Some direction) dom v = Ok v' /\
    playing v' = playing v /\ currentSpeed v' = currentSpeed v /\
    (dom = None -> v' = v).
Proof.
  unfold goToSegment.
  destruct (length segments =? 0)%nat eqn:E; [eauto 6|].
  assert (Hne : segments <> []) by (intros ->; discriminate E).
  assert (Hi : exists i,
             goToSegment_index segments index (Some direction) = Ok i).
  { destruct direction.
    - destruct (goToSegment_index_next segments Hne index) as (i & Ei & _).
      eauto.
    - destruct (goToSegment_index_prev segments Hne index) as (i & Ei & _).
      eauto. }
  destruct Hi as [i ->]. simpl.
  destruct dom as [d|]; [|eauto 6].
  destruct (segmentRef d i); [|eauto 6].
  eexists. split; [reflexivity|]. repeat split. discriminate.
Qed.

(** X10. A frame never moves the offset backwards: from an offset within
    [maxOffset], with time not running backwards and a speed of at least
    [SPEED_MIN], the new offset is between the old one and [maxOffset]. *)
Theorem step_moves_forward (now : Q) (d : Dom) (v : View) :
  scrollPosition v <= maxOffset d -> lastTime v <= now ->
  (SPEED_MIN <= currentSpeed v)%Z ->
  scrollPosition v <= scrollPosition (step now d v) /\
  scrollPosition (step now d v) <= maxOffset d.
Proof.
  intros Hin Ht Hs. rewrite step_scrollPosition_min.
  pose proof (travel_nonneg (currentSpeed v) (lastTime v) now Hs Ht) as HA.
  fold (travel (currentSpeed v) (lastTime v) now).
  destruct (Q.min_spec
              (scrollPosition v + travel (currentSpeed v) (lastTime v) now)
              (maxOffset d)) as [[H ->]|[H ->]]; split; lra.
Qed.

Lemma step_moves_forward_witness :
  scrollPosition initial_view <= scrollPosition (step 16 dom_100 initial_view)
  /\ scrollPosition (step 16 dom_100 initial_view) <= maxOffset dom_100.
Proof.
  apply (step_moves_forward 16 dom_100 initial_view);
    vm_compute; discriminate.
Defined.

(** X12. Line steps stop at the ends: within one line of the top a line up
    gives offset 0, within one line of [maxOffset] a line down gives
    [maxOffset]. *)
Theorem stepScroll_stops_at_ends (d : Dom) (v : View) :
  (scrollPosition v <= inject_Z LINE_STEP_PX ->
   scrollPosition (stepScroll Up (Some d) v) == 0) /\
  (maxOffset d - inject_Z LINE_STEP_PX <= scrollPosition v ->
   scrollPosition (stepScroll Down (Some d) v) == maxOffset d).
Proof.
  pose proof (maxOffset_nonneg d) as Hm.
  rewrite !stepScroll_scrollPosition.
  change (inject_Z (line_sign Up * LINE_STEP_PX)) with (- (28)).
  change (inject_Z (line_sign Down * LINE_STEP_PX)) with 28.
  change (inject_Z LINE_STEP_PX) with 28.
  set (p := scrollPosition v) in *. set (m := maxOffset d) in *.
  split; intros H.
  - destruct (Q.min_spec (p + - (28)) m) as [[H1 E1]|[H1 E1]];
    destruct (Q.max_spec 0 (Qmin (p + - (28)) m)) as [[H2 E2]|[H2 E2]]; lra.
  - destruct (Q.min_spec (p + 28) m) as [[H1 E1]|[H1 E1]];
    destruct (Q.max_spec 0 (Qmin (p + 28) m)) as [[H2 E2]|[H2 E2]]; lra.
Qed.

Lemma stepScroll_stops_at_ends_witness :
  scrollPosition (stepScroll Up (Some dom_100) initial_view) == 0 /\
  scrollPosition (stepScroll Down (Some dom_15) initial_view)
  == maxOffset dom_15.
Proof.
  split.
  - apply (stepScroll_stops_at_ends dom_100 initial_view).
    vm_compute. discriminate.
  - apply (stepScroll_stops_at_ends dom_15 initial_view).
    vm_compute. discriminate.
Defined.

(** X13. The speed keys keep the speed between [SPEED_MIN] and [SPEED_MAX]:
    the speed never goes above 10 by the up key nor below 1 by the down
    key; inside the range the scroll rate is between 8 and 35 pixels per
    second, and up then down (or down then up) away from the ends gives the
    speed back. *)
Theorem speed_keys_keep_range (v : View) :
  (currentSpeed (speedUp v) <= SPEED_MAX /\
   SPEED_MIN <= currentSpeed (speedDown v) /\
   (SPEED_MIN <= currentSpeed v <= SPEED_MAX ->
    SPEED_MIN <= currentSpeed (speedUp v) <= SPEED_MAX /\
    SPEED_MIN <= currentSpeed (speedDown v) <= SPEED_MAX /\
    8 <= getPxPerSecond (currentSpeed v) <= 35) /\
   (SPEED_MIN <= currentSpeed v < SPEED_MAX ->
    currentSpeed (speedDown (speedUp v)) = currentSpeed v) /\
   (SPEED_MIN < currentSpeed v <= SPEED_MAX ->
    currentSpeed (speedUp (speedDown v)) = currentSpeed v))%Z.
Proof.
  unfold speedUp, speedDown, setCurrentSpeed, getPxPerSecond.
  cbn [currentSpeed].
  unfold SPEED_MIN, SPEED_MAX, PX_PER_SEC_BASE, PX_PER_SEC_PER_UNIT. lia.
Qed.

(** X14. [getCurrentSegmentIndex] on a mounted view with segments returns an
    index of the list; every rendered segment before it has its bottom edge
    at or above the centre of the viewport; and the segment at the index is
    rendered with its bottom edge below the centre, unless no rendered
    segment reaches below the centre, in which case the index is the last
    one. *)
Theorem getCurrentSegmentIndex_spec (segments : list jsstring) (d : Dom)
        (v : View) :
  segments <> [] ->
  let idx := getCurrentSegmentIndex segments (Some d) v in
  let center := scrollTop v + clientHeight d / 2 in
  (0 <= idx < Z.of_nat (length segments))%Z /\
  (forall j el, (0 <= j < idx)%Z -> segmentRef d j = Some el ->
                offsetTop el + offsetHeight el <= center) /\
  ((exists el, segmentRef d idx = Some el /\
               center < offsetTop el + offsetHeight el) \/
   (idx = (Z.of_nat (length segments) - 1)%Z /\
    forall j el, (0 <= j < Z.of_nat (length segments))%Z ->
                 segmentRef d j = Some el ->
                 offsetTop el + offsetHeight el <= center)).
Proof.
  intros Hne. cbv zeta. rewrite (getCurrentSegmentIndex_mounted _ _ _ Hne).
  assert (Hlen : (1 <= Z.of_nat (length segments))%Z)
    by (destruct segments; [contradiction | simpl length; lia]).
  pose proof (first_below_center_spec d (scrollTop v + clientHeight d / 2)
                (length segments) 0) as Hspec.
  destruct (first_below_center d _ 0 (length segments)) as [r|].
  - destruct Hspec as (Hr & Hel & Hbefore).
    split; [lia|]. split; [exact Hbefore | now left].
  - split; [lia|]. split.
    + intros j el Hj. apply Hspec. lia.
    + right. split; [reflexivity|]. intros j el Hj. apply Hspec. lia.
Qed.

Lemma getCurrentSegmentIndex_spec_witness :
  (0 <= getCurrentSegmentIndex (getSegments text_a_b_c) (Some dom_a_b_c)
                               initial_view
   < Z.of_nat (length (getSegments text_a_b_c)))%Z.
Proof.
  apply (getCurrentSegmentIndex_spec (getSegments text_a_b_c) dom_a_b_c
                                     initial_view).
  vm_compute. discriminate.
Defined.

Lemma goToSegment_moves (segments : list jsstring) (index i : Z)
      (direction : option Direction) (d : Dom) (el : Element) (v : View) :
  segments <> [] ->
  goToSegment_index segments index direction = Ok i ->
  segmentRef d i = Some el ->
  goToSegment segments index direction (Some d) v
  = Ok (let clamped :=
          Qmax 0 (Qmin (offsetTop el - clientHeight d / 2
                        + offsetHeight el / 2)
                       (container_scrollHeight d - clientHeight d)) in
        setScrollTop clamped (setScrollPosition clamped v)).
Proof.
  intros Hne Hi Hel. unfold goToSegment.
  destruct segments; [contradiction|]. simpl Nat.eqb. cbv iota.
  rewrite Hi. simpl bind. now rewrite Hel.
Qed.

(** X15. When [goToSegment] settles on a rendered segment it leaves the
    container's scroll position and the state equal, so the scroll event
    that follows changes nothing; it does not touch the play state or the
    speed; and when the centring offset lies within the scroll range of the
    container, the centre of the segment is at the centre of the viewport. *)
Theorem goToSegment_centres (segments : list jsstring) (index i : Z)
        (direction : option Direction) (d : Dom) (el : Element) (v : View) :
  segments <> [] ->
  goToSegment_index segments index direction = Ok i ->
  segmentRef d i = Some el ->
  exists v',
    goToSegment segments index direction (Some d) v = Ok v' /\
    scrollTop v' = scrollPosition v' /\ onScroll v' = v' /\
    playing v' = playing v /\ currentSpeed v' = currentSpeed v /\
    (0 <= offsetTop el - clientHeight d / 2 + offsetHeight el / 2 ->
     offsetTop el - clientHeight d / 2 + offsetHeight el / 2
     <= container_scrollHeight d - clientHeight d ->
     scrollPosition v' + clientHeight d / 2
     == offsetTop el + offsetHeight el / 2).
Proof.
  intros Hne Hi Hel. eexists.
  split; [apply (goToSegment_moves _ _ _ _ _ _ _ Hne Hi Hel)|].
  cbv zeta. repeat split. simpl.
  intros Hlo Hhi.
  set (target := offsetTop el - clientHeight d / 2 + offsetHeight el / 2) in *.
  set (range := container_scrollHeight d - clientHeight d) in *.
  destruct (Q.min_spec target range) as [[H1 E1]|[H1 E1]];
  destruct (Q.max_spec 0 (Qmin target range)) as [[H2 E2]|[H2 E2]];
    rewrite E2; unfold target in *; lra.
Qed.

Lemma goToSegment_centres_witness :
  exists v',
    goToSegment (getSegments text_a_b_c) 1 (Some Next) (Some dom_a_b_c)
                initial_view = Ok v' /\
    scrollPosition v' + clientHeight dom_a_b_c / 2 == 52 + 32 / 2.
Proof.
  destruct (goToSegment_centres
              (getSegments text_a_b_c) 1 2 (Some Next) dom_a_b_c
              {| offsetTop := 52; offsetHeight := 32 |} initial_view)
    as (v' & E & _ & _ & _ & _ & Hc);
    [vm_compute; discriminate | vm_compute; reflexivity | reflexivity |].
  exists v'. split; [exact E|].
  apply Hc; vm_compute; discriminate.
Defined.

(** X16. After [goToSegment] has centred a segment of positive height, in a
    layout where the rendered segments before it end at or above its top,
    [getCurrentSegmentIndex] returns that segment. *)
Theorem goToSegment_then_current (segments : list jsstring) (index i : Z)
        (direction : option Direction) (d : Dom) (el : Element) (v : View) :
  segments <> [] ->
  goToSegment_index segments index direction = Ok i ->
  (0 <= i < Z.of_nat (length segments))%Z ->
  segmentRef d i = Some el ->
  0 < offsetHeight el ->
  (forall j before, (0 <= j < i)%Z -> segmentRef d j = Some before ->
                    offsetTop before + offsetHeight before <= offsetTop el) ->
  0 <= offsetTop el - clientHeight d / 2 + offsetHeight el / 2 ->
  offsetTop el - clientHeight d / 2 + offsetHeight el / 2
  <= container_scrollHeight d - clientHeight d ->
  exists v',
    goToSegment segments index direction (Some d) v = Ok v' /\
    getCurrentSegmentIndex segments (Some d) v' = i.
Proof.
  intros Hne Hi Hrange Hel Hh Hstack Hlo Hhi. eexists.
  split; [apply (goToSegment_moves _ _ _ _ _ _ _ Hne Hi Hel)|].
  cbv zeta. rewrite (getCurrentSegmentIndex_mounted _ _ _ Hne).
  simpl scrollTop.
  set (target := offsetTop el - clientHeight d / 2 + offsetHeight el / 2) in *.
  set (range := container_scrollHeight d - clientHeight d) in *.
  assert (Hc : Qmax 0 (Qmin target range) + clientHeight d / 2
               == offsetTop el + offsetHeight el / 2).
  { destruct (Q.min_spec target range) as [[H1 E1]|[H1 E1]];
    destruct (Q.max_spec 0 (Qmin target range)) as [[H2 E2]|[H2 E2]];
      rewrite E2; unfold target in *; lra. }
  set (c := Qmax 0 (Qmin target range) + clientHeight d / 2) in *.
  clearbody c. clear Hlo Hhi. clearbody target range.
  assert (Hhalf : 0 < offsetHeight el / 2 /\
                  offsetHeight el / 2 < offsetHeight el)
    by (split; [apply Qlt_shift_div_l | apply Qlt_shift_div_r]; lra).
  pose proof (first_below_center_spec d c (length segments) 0) as Hspec.
  destruct (first_below_center d c 0 (length segments)) as [r|].
  - destruct Hspec as (Hr & (el' & Hel' & Hbelow) & Hbefore).
    destruct (Z.lt_total r i) as [Hlt|[Heq|Hgt]]; [|exact Heq|].
    + exfalso. pose proof (Hstack r el' ltac:(lia) Hel'). lra.
    + exfalso. pose proof (Hbefore i el ltac:(lia) Hel). lra.
  - exfalso. pose proof (Hspec i el ltac:(lia) Hel). lra.
Qed.

Lemma goToSegment_then_current_witness :
  exists v',
    goToSegment (getSegments text_a_b_c) 1 (Some Next) (Some dom_a_b_c)
                initial_view = Ok v' /\
    getCurrentSegmentIndex (getSegments text_a_b_c) (Some dom_a_b_c) v'
    = 2%Z.
Proof.
  apply (goToSegment_then_current
           (getSegments text_a_b_c) 1 2 (Some Next) dom_a_b_c
           {| offsetTop := 52; offsetHeight := 32 |} initial_view).
  - vm_compute. discriminate.
  - vm_compute. reflexivity.
  - vm_compute. intuition discriminate.
  - reflexivity.
  - reflexivity.
  - intros j before Hj.
    assert (Hcases : j = 0%Z \/ j = 1%Z) by lia.
    destruct Hcases as [-> | ->]; vm_compute; intros H;
      [injection H as <-; discriminate | discriminate H].
  - vm_compute. discriminate.
  - vm_compute. discriminate.
Defined.

(** X17. The arrow keys never throw, whatever the segments, the layout and
    the state, and they leave the play state and the speed as they are. *)
Theorem arrow_keys_return (segments : list jsstring) (dom : option Dom)
        (v : View) :
  (exists v', arrowDown segments dom v = Ok v' /\
              playing v' = playing v /\ currentSpeed v' = currentSpeed v) /\
  (exists v', arrowUp segments dom v = Ok v' /\
              playing v' = playing v /\ currentSpeed v' = currentSpeed v).
Proof.
  assert (Hline : forall direction,
             playing (stepScroll direction dom v) = playing v /\
             currentSpeed (stepScroll direction dom v) = currentSpeed v)
    by (intros direction; destruct dom; split; reflexivity).
  unfold arrowDown, arrowUp. split.
  - destruct (1 <=? length segments)%nat, (1 <? length segments)%nat;
      try (eexists; split; [reflexivity | apply Hline]).
    all: destruct (_ <? _)%Z;
      try (eexists; split; [reflexivity | apply Hline]).
    all: destruct (goToSegment_directed segments
                     (getCurrentSegmentIndex segments dom v + 1) Next dom v)
        as (v' & E & Hp & Hs & _); eauto.
  - destruct (1 <=? length segments)%nat, (1 <? length segments)%nat;
      try (eexists; split; [reflexivity | apply Hline]).
    all: destruct (_ <? _)%Z;
      try (eexists; split; [reflexivity | apply Hline]).
    all: destruct (goToSegment_directed segments
                     (getCurrentSegmentIndex segments dom v - 1) Prev dom v)
        as (v' & E & Hp & Hs & _); eauto.
Qed.

(** X18. While the view is not mounted nothing moves: frames, geometry
    updates, line steps, [goToSegment] with a direction and the arrow keys
    all leave the state as it is, and the current segment index is 0. *)
Theorem unmounted_no_op (segments : list jsstring) (v : View) :
  (forall now, frame now None v = v) /\
  updateMaxScroll None v = v /\
  (forall direction, stepScroll direction None v = v) /\
  (forall index direction,
      goToSegment segments index (Some direction) None v = Ok v) /\
  arrowDown segments None v = Ok v /\
  arrowUp segments None v = Ok v /\
  getCurrentSegmentIndex segments None v = 0%Z.
Proof.
  assert (Hgo : forall index direction,
             goToSegment segments index (Some direction) None v = Ok v).
  { intros index direction.
    destruct (goToSegment_directed segments index direction None v)
      as (v' & E & _ & _ & Hv). now rewrite E, Hv. }
  repeat split; auto.
  - unfold arrowDown. simpl getCurrentSegmentIndex.
    destruct (1 <? length segments)%nat; [|reflexivity].
    destruct (_ <? _)%Z; [apply Hgo | reflexivity].
  - unfold arrowUp. simpl getCurrentSegmentIndex.
    destruct (1 <? length segments)%nat; reflexivity.
Qed.

Lemma Math_round_between (x : Q) (lo hi : Z) :
  inject_Z lo <= x -> x <= inject_Z hi ->
  (lo <= Math_round x <= hi)%Z.
Proof.
  intros Hlo Hhi. unfold Math_round. split.
  - rewrite <- (Qfloor_Z lo). apply Qfloor_resp_le. lra.
  - assert (H : (Qfloor (x + (1 # 2)) <= Qfloor (inject_Z hi + (1 # 2)))%Z)
      by (apply Qfloor_resp_le; lra).
    assert (Hf : Qfloor (inject_Z hi + (1 # 2)) = hi).
    { apply Z.le_antisymm.
      - apply Z.lt_succ_r. rewrite Zlt_Qlt.
        eapply Qle_lt_trans; [apply Qfloor_le|].
        unfold Z.succ. rewrite inject_Z_plus. change (inject_Z 1) with 1.
        lra.
      - rewrite <- (Qfloor_Z hi) at 1. apply Qfloor_resp_le. lra. }
    lia.
Qed.

(** X19. The progress shown is 0 when there is nothing to scroll, between 0
    and 100 whenever the offset is between 0 and [maxScroll], 0 at the top
    and 100 at [maxScroll]. *)
Theorem progressPercent_range (v : View) :
  (maxScroll v <= 0 -> progressPercent v = 0%Z) /\
  (0 < maxScroll v ->
   0 <= scrollPosition v -> scrollPosition v <= maxScroll v ->
   (0 <= progressPercent v <= 100)%Z) /\
  (0 < maxScroll v -> scrollPosition v == 0 -> progressPercent v = 0%Z) /\
  (0 < maxScroll v -> scrollPosition v == maxScroll v ->
   progressPercent v = 100%Z).
Proof.
  unfold progressPercent.
  set (p := scrollPosition v). set (m := maxScroll v).
  assert (Hdiv : forall lo hi : Q,
             0 < m -> lo * m <= p -> p <= hi * m ->
             lo * 100 <= p / m * 100 /\ p / m * 100 <= hi * 100).
  { intros lo hi Hm Hlo Hhi.
    assert (lo <= p / m) by now apply Qle_shift_div_l.
    assert (p / m <= hi) by now apply Qle_shift_div_r.
    split; lra. }
  split; [|split; [|split]].
  - intros Hm. destruct (Qlt_bool 0 m) eqn:E; [|reflexivity].
    apply Qlt_bool_iff in E. lra.
  - intros Hm Hlo Hhi. apply Qlt_bool_iff in Hm as E. rewrite E.
    destruct (Hdiv 0 1 Hm) as [H0 H1]; [lra | lra |].
    apply Math_round_between; unfold inject_Z; lra.
  - intros Hm Hz. apply Qlt_bool_iff in Hm as E. rewrite E.
    destruct (Hdiv 0 0 Hm) as [H0 H1]; [lra | lra |].
    assert (H : (0 <= Math_round (p / m * 100) <= 0)%Z)
      by (apply Math_round_between; unfold inject_Z; lra).
    lia.
  - intros Hm Hz. apply Qlt_bool_iff in Hm as E. rewrite E.
    destruct (Hdiv 1 1 Hm) as [H0 H1]; [lra | lra |].
    assert (H : (100 <= Math_round (p / m * 100) <= 100)%Z)
      by (apply Math_round_between; unfold inject_Z; lra).
    lia.
Qed.

Lemma progressPercent_range_witness :
  (0 <= progressPercent
          (setScrollPosition 38 (updateMaxScroll (Some dom_a_b_c) initial_view))
   <= 100)%Z.
Proof.
  apply (progressPercent_range
           (setScrollPosition 38
              (updateMaxScroll (Some dom_a_b_c) initial_view)));
    vm_compute; reflexivity || discriminate.
Defined.

End ScrollMore.

(** ** Placing the teleprompter window *)

Module MainFacts.

Import Main.
Local Open Scope Z_scope.

Lemma round_half_bounds (n : Z) : 2 * round_half n - 1 <= n <= 2 * round_half n.
Proof.
  unfold round_half.
  pose proof (Z.div_mod (n + 1) 2 ltac:(lia)).
  pose proof (Z.mod_pos_bound (n + 1) 2 ltac:(lia)). lia.
Qed.

Lemma getBoundsForAlignment_inside_lemma (workArea : Rectangle)
      (alignment : Alignment) (h : Z) :
  width (getBoundsForAlignment workArea alignment h) = TELEPROMPTER_WIDTH /\
  height (getBoundsForAlignment workArea alignment h) = h /\
  (TELEPROMPTER_WIDTH <= width workArea -> h <= height workArea ->
   inside (getBoundsForAlignment workArea alignment h) workArea).
Proof.
  split; [destruct alignment; reflexivity|].
  split; [destruct alignment; reflexivity|].
  intros Hw Hh. unfold inside.
  pose proof (round_half_bounds (width workArea - TELEPROMPTER_WIDTH)).
  pose proof (round_half_bounds (height workArea - h)).
  destruct alignment; simpl; lia.
Qed.

(** X20. The window always has the teleprompter's width and the height
    asked for, and whenever the work area of the display is at least that
    wide and that high the window lies within it, for every alignment. *)
Theorem getBoundsForAlignment_inside (workArea : Rectangle)
        (alignment : Alignment) (h : Z) :
  width (getBoundsForAlignment workArea alignment h) = TELEPROMPTER_WIDTH /\
  height (getBoundsForAlignment workArea alignment h) = h /\
  (TELEPROMPTER_WIDTH <= width workArea -> h <= height workArea ->
   inside (getBoundsForAlignment workArea alignment h) workArea).
Proof. apply getBoundsForAlignment_inside_lemma. Qed.

Lemma getBoundsForAlignment_inside_witness :
  inside (getBoundsForAlignment
            {| x := 0; y := 25; width := 1920; height := 1055 |} Bottom 350)
         {| x := 0; y := 25; width := 1920; height := 1055 |}.
Proof.
  apply (getBoundsForAlignment_inside
           {| x := 0; y := 25; width := 1920; height := 1055 |} Bottom 350);
    vm_compute; discriminate.
Defined.

(** X21. The alignments that centre the window do so within one pixel: for
    top, middle and bottom the left margin is the right margin or one pixel
    more, and for left, middle and right the top margin is the bottom
    margin or one pixel more. *)
Theorem getBoundsForAlignment_centred (workArea : Rectangle)
        (alignment : Alignment) (h : Z) :
  let r := getBoundsForAlignment workArea alignment h in
  let left := x r - x workArea in
  let right := (x workArea + width workArea) - (x r + width r) in
  let above := y r - y workArea in
  let below := (y workArea + height workArea) - (y r + height r) in
  (alignment = Top \/ alignment = Middle \/ alignment = Bottom ->
   right <= left <= right + 1) /\
  (alignment = Left \/ alignment = Middle \/ alignment = Right ->
   below <= above <= below + 1).
Proof.
  cbv zeta.
  pose proof (round_half_bounds (width workArea - TELEPROMPTER_WIDTH)).
  pose proof (round_half_bounds (height workArea - h)).
  split; intros [-> | [-> | ->]]; simpl; lia.
Qed.

(** X22. A new teleprompter window, with the alignment and the height of the
    payload or their defaults (middle, medium), is 720 pixels wide and 275,
    350 or 475 pixels high, and lies within the work area whenever that is
    at least 720 pixels wide and 475 high. *)
Theorem teleprompter_bounds_inside (workArea : Rectangle)
        (alignment : option Alignment) (windowHeight : option WindowHeight) :
  let r := teleprompter_bounds workArea alignment windowHeight in
  width r = 720 /\
  (height r = 275 \/ height r = 350 \/ height r = 475) /\
  (windowHeight = None -> height r = 350) /\
  (720 <= width workArea -> 475 <= height workArea -> inside r workArea).
Proof.
  cbv zeta. unfold teleprompter_bounds.
  set (a := match alignment with Some a => a | None => Middle end).
  set (wh := match windowHeight with Some h => h | None => Medium end).
  destruct (getBoundsForAlignment_inside_lemma workArea a
              (TELEPROMPTER_HEIGHT_MAP wh)) as (Hw & Hh & Hin).
  rewrite Hw, Hh. split; [reflexivity|]. split; [|split].
  - destruct wh; simpl; auto.
  - intros ->. reflexivity.
  - intros H1 H2. apply Hin; [exact H1|]. destruct wh; simpl; lia.
Qed.

End MainFacts.

(** ** The name of a loaded file *)

Section FileName.





End FileName.


